(** * bevy_ggrs: rollback sessions, input queues and the box_game setup

    The repository ships the box_game examples (src/examples/box_game);
    the plugin's world snapshot and rollback stage, and the session engine
    they drive, are used there only through their API.  Those parts are
    modelled from the natural-language specification and marked so. *)

From Stdlib Require Import String ZArith NArith Lia.
From stdpp Require Import base gmap list.

(* ===================================================================== *)
(** ** World snapshots and the rollback stage *)
(* ===================================================================== *)
Module Snapshot.

(** Component and resource type ids, and rollback entity ids, are [nat];
    a component or resource value is an opaque payload, written [Z]. *)

(** Modelled from the spec: the Bevy world as seen by the rollback
    plugin: the entities carrying a [Rollback] id, each with its
    components by type id, the resources by type id, and all other state
    of the app, which the plugin never touches. *)
Record World := mkWorld {
  rb_entities : gmap nat (gmap nat Z);
  resources : gmap nat Z;
  other_state : list Z
}.

(** Modelled from the spec: the types registered with
    [register_rollback_component] and [register_rollback_resource]. *)
Record Registry := mkRegistry {
  reg_components : gset nat;
  reg_resources : gset nat
}.

(** Modelled from the spec: a StateSnapshot, the copy of all
    rollback-registered state (components and resources). *)
Record StateSnapshot := mkSnapshot {
  snap_entities : gmap nat (gmap nat Z);
  snap_resources : gmap nat Z
}.

Definition registered (reg : gset nat) (m : gmap nat Z) : gmap nat Z :=
  filter (fun kv => kv.1 ∈ reg) m.

Definition unregistered (reg : gset nat) (m : gmap nat Z) : gmap nat Z :=
  filter (fun kv => kv.1 ∉ reg) m.

(** Modelled from the spec: taking a snapshot copies the registered
    components of every rollback entity and the registered resources. *)
Definition take_snapshot (r : Registry) (w : World) : StateSnapshot :=
  {| snap_entities := registered (reg_components r) <$> rb_entities w;
     snap_resources := registered (reg_resources r) (resources w) |}.

(** Modelled from the spec: restoring one rollback entity.  An entity of
    the snapshot gets the snapshot's registered components back and keeps
    its unregistered ones; an entity missing from the world is spawned; a
    rollback entity unknown to the snapshot is despawned. *)
Definition restore_entity (r : Registry)
    (snap : option (gmap nat Z)) (cur : option (gmap nat Z))
    : option (gmap nat Z) :=
  match snap, cur with
  | Some sc, Some wc => Some (sc ∪ unregistered (reg_components r) wc)
  | Some sc, None => Some sc
  | None, _ => None
  end.

(** Modelled from the spec: writing a snapshot back into the world. *)
Definition restore_snapshot (r : Registry) (s : StateSnapshot) (w : World)
    : World :=
  {| rb_entities := merge (restore_entity r) (snap_entities s) (rb_entities w);
     resources := snap_resources s ∪ unregistered (reg_resources r) (resources w);
     other_state := other_state w |}.

(** Modelled from the spec: the requests the session hands to the
    rollback stage each tick: save the registered state of a frame, load
    the snapshot of a frame, or run the rollback schedule once on the
    inputs of all players. *)
Inductive GGRSRequest :=
  | SaveGameState (frame : nat)
  | LoadGameState (frame : nat)
  | AdvanceFrame (inputs : list Z).

(** Modelled from the spec: the stage owns the world it drives, the
    snapshots by frame, and the frame counter. *)
Record StageState := mkStage {
  stage_world : World;
  stage_snapshots : gmap nat StateSnapshot;
  stage_frame : nat
}.

Section Stage.
Variable r : Registry.
(** The registered rollback schedule, run once per [AdvanceFrame]. *)
Variable step : list Z -> World -> World.

(** Modelled from the spec: one request.  Loading a frame whose
    snapshot is not retained is the fatal resync case, [None]. *)
Definition handle_request (st : StageState) (req : GGRSRequest)
    : option StageState :=
  match req with
  | SaveGameState f =>
      Some {| stage_world := stage_world st;
              stage_snapshots :=
                <[f := take_snapshot r (stage_world st)]> (stage_snapshots st);
              stage_frame := stage_frame st |}
  | LoadGameState f =>
      match stage_snapshots st !! f with
      | Some s =>
          Some {| stage_world := restore_snapshot r s (stage_world st);
                  stage_snapshots := stage_snapshots st;
                  stage_frame := f |}
      | None => None
      end
  | AdvanceFrame inp =>
      Some {| stage_world := step inp (stage_world st);
              stage_snapshots := stage_snapshots st;
              stage_frame := S (stage_frame st) |}
  end.

Fixpoint handle_requests (st : StageState) (reqs : list GGRSRequest)
    : option StageState :=
  match reqs with
  | [] => Some st
  | q :: qs =>
      match handle_request st q with
      | Some st' => handle_requests st' qs
      | None => None
      end
  end.

(** The uninterrupted forward simulation: the schedule run on the
    inputs of every frame in order. *)
Definition simulate (w : World) (inputs : list (list Z)) : World :=
  fold_left (fun w i => step i w) inputs w.

(** Advancing from frame [f]: run the schedule, then snapshot the new
    frame, for each frame's inputs in turn. *)
Fixpoint advance_requests (f : nat) (inputs : list (list Z))
    : list GGRSRequest :=
  match inputs with
  | [] => []
  | i :: is => AdvanceFrame i :: SaveGameState (S f) :: advance_requests (S f) is
  end.

Definition forward_requests (inputs : list (list Z)) : list GGRSRequest :=
  SaveGameState 0 :: advance_requests 0 inputs.

(** A rollback to frame [k]: load its snapshot and resimulate the
    frames after it with the same inputs, snapshotting each one. *)
Definition rollback_requests (k : nat) (inputs : list (list Z))
    : list GGRSRequest :=
  LoadGameState k :: advance_requests k (drop k inputs).

Definition init_stage (w : World) : StageState :=
  {| stage_world := w; stage_snapshots := ∅; stage_frame := 0 |}.
End Stage.

(** The documented contract of the rollback schedule: its effect on the
    registered state depends on the registered state and the inputs only. *)
Definition schedule_deterministic (r : Registry) (step : list Z -> World -> World) : Prop :=
  forall i w w', take_snapshot r w = take_snapshot r w' ->
    take_snapshot r (step i w) = take_snapshot r (step i w').

(** A concrete rollback schedule: it counts frames in resource 0 and logs
    each frame's inputs in the unregistered part of the app. *)
Definition frame_counting_schedule (i : list Z) (w : World) : World :=
  {| rb_entities := rb_entities w;
     resources := <[0%nat := (default 0 (resources w !! 0%nat) + 1)%Z]> (resources w);
     other_state := i ++ other_state w |}.

End Snapshot.

(* ===================================================================== *)
(** ** Input queues *)
(* ===================================================================== *)
Module InputQueue.

(** Modelled from the spec: the InputQueue of one player, a frame-indexed
    store of (input, confirmed) entries for the frames from [first_frame]
    up to (not including) [end_frame], and the input predicted for the
    frames after them.  An input payload is written [Z]. *)
Record InputQueue := mkQueue {
  first_frame : nat;
  end_frame : nat;
  inputs : gmap nat (Z * bool);
  prediction : Z;
  default_input : Z
}.

Definition empty_queue (d : Z) : InputQueue :=
  {| first_frame := 0; end_frame := 0; inputs := ∅; prediction := d;
     default_input := d |}.

(** Predicted entries holding [p] for the [k] frames from [g]. *)
Fixpoint fill_predictions (m : gmap nat (Z * bool)) (p : Z) (g k : nat)
    : gmap nat (Z * bool) :=
  match k with
  | 0 => m
  | S k' => fill_predictions (<[g := (p, false)]> m) p (S g) k'
  end.

(** Prediction by repetition after a confirmed input [v]: the entries of
    the [k] frames from [g] take [v] up to the next confirmed entry; the
    flag tells whether the run went through all [k] frames. *)
Fixpoint repredict (m : gmap nat (Z * bool)) (v : Z) (g k : nat)
    : gmap nat (Z * bool) * bool :=
  match k with
  | 0 => (m, true)
  | S k' =>
      match m !! g with
      | Some (_, true) => (m, false)
      | _ => repredict (<[g := (v, false)]> m) v (S g) k'
      end
  end.

(** Modelled from the spec: write a confirmed input at a frame.  Frames
    older than the retained history are dropped.  Inside the queue the
    entry is overwritten and the predictions after it are repeated
    forward from it.  Past the end, the frames in between are filled with
    the current prediction (the queue never has a gap) and the new input
    becomes the prediction. *)
Definition add_confirmed (q : InputQueue) (frame : nat) (v : Z) : InputQueue :=
  if frame <? first_frame q then q
  else if frame <? end_frame q then
    let '(m, to_end) :=
      repredict (<[frame := (v, true)]> (inputs q)) v (S frame) (end_frame q - S frame) in
    {| first_frame := first_frame q; end_frame := end_frame q; inputs := m;
       prediction := if to_end then v else prediction q;
       default_input := default_input q |}
  else
    {| first_frame := first_frame q; end_frame := S frame;
       inputs := <[frame := (v, true)]>
         (fill_predictions (inputs q) (prediction q) (end_frame q) (frame - end_frame q));
       prediction := v; default_input := default_input q |}.

(** An input that is not final yet only brings its frame, and those
    before it, into the queue, as predictions. *)
Definition extend_predicted (q : InputQueue) (frame : nat) : InputQueue :=
  if frame <? end_frame q then q
  else
    {| first_frame := first_frame q; end_frame := S frame;
       inputs := fill_predictions (inputs q) (prediction q) (end_frame q)
                   (S frame - end_frame q);
       prediction := prediction q; default_input := default_input q |}.

(** Modelled from the spec: a local input is confirmed at once. *)
Definition add_local_input (q : InputQueue) (frame : nat) (v : Z) : InputQueue :=
  add_confirmed q frame v.

Definition entry_at (q : InputQueue) (f : nat) : option (Z * bool) :=
  if f <? first_frame q then None else inputs q !! f.

(** Modelled from the spec: a remote input; the frame is reported as a
    misprediction when a confirmed value replaces a predicted entry
    holding a different value. *)
Definition add_remote_input (q : InputQueue) (frame : nat) (v : Z) (conf : bool)
    : InputQueue * option nat :=
  let flag :=
    match entry_at q frame with
    | Some (p, false) => if conf && negb (Z.eqb p v) then Some frame else None
    | _ => None
    end in
  (if conf then add_confirmed q frame v else extend_predicted q frame, flag).

(** Modelled from the spec: the best-known input of a frame, with its
    confirmed flag.  Past the end the prediction is returned; frames
    before the retained history are gone ([None]). *)
Definition input_for_frame (q : InputQueue) (f : nat) : option (Z * bool) :=
  if f <? first_frame q then None
  else if f <? end_frame q then inputs q !! f
  else Some (prediction q, false).

(** Length of the run of confirmed entries among the [k] frames from [g]. *)
Fixpoint confirmed_run (m : gmap nat (Z * bool)) (g k : nat) : nat :=
  match k with
  | 0 => 0
  | S k' =>
      match m !! g with
      | Some (_, true) => S (confirmed_run m (S g) k')
      | _ => 0
      end
  end.

(** Modelled from the spec: history is retained back to
    max(0, last_confirmed_frame - prediction_window), where the last
    confirmed frame ends the run of confirmed entries from the first
    retained frame. *)
Definition discard_history (q : InputQueue) (window : nat) : InputQueue :=
  match confirmed_run (inputs q) (first_frame q) (end_frame q - first_frame q) with
  | 0 => q
  | S n =>
      let last_confirmed := first_frame q + n in
      let keep_from := Nat.max (first_frame q) (last_confirmed - window) in
      {| first_frame := keep_from; end_frame := end_frame q;
         inputs := filter (fun e : nat * (Z * bool) => keep_from <= e.1) (inputs q);
         prediction := prediction q; default_input := default_input q |}
  end.

(** Spec side: the most recent confirmed input among the frames from
    [lo] up to (not including) [hi]. *)
Fixpoint latest_confirmed_below (m : gmap nat (Z * bool)) (lo hi : nat) : option Z :=
  match hi with
  | 0 => None
  | S h =>
      if h <? lo then None
      else match m !! h with
           | Some (v, true) => Some v
           | _ => latest_confirmed_below m lo h
           end
  end.

Definition latest_confirmed_before (q : InputQueue) (f : nat) : option Z :=
  latest_confirmed_below (inputs q) (first_frame q) f.

Definition default_or (o : option Z) (d : Z) : Z :=
  match o with Some x => x | None => d end.

(** Spec side: the best-known input of a retained frame: its confirmed
    input when present, else the most recent confirmed input before it,
    else the caller default. *)
Definition spec_best_input (q : InputQueue) (f : nat) : Z * bool :=
  match entry_at q f with
  | Some (v, true) => (v, true)
  | _ => (default_or (latest_confirmed_before q f) (default_input q), false)
  end.

(** Spec side: the queue invariant: an entry for every frame from the
    earliest retained one to the latest and for no other frame, and
    every unconfirmed entry, as well as the prediction for the frames
    after the latest, a copy of the last confirmed input before it or of
    the default. *)
Definition no_gap (q : InputQueue) : Prop :=
  first_frame q <= end_frame q /\
  forall f, first_frame q <= f < end_frame q <-> is_Some (inputs q !! f).

Definition predictions_repeat (q : InputQueue) : Prop :=
  (forall f v, inputs q !! f = Some (v, false) ->
     v = default_or (latest_confirmed_before q f) (default_input q)) /\
  prediction q = default_or (latest_confirmed_before q (end_frame q)) (default_input q).

Definition queue_inv (q : InputQueue) : Prop := no_gap q /\ predictions_repeat q.

(** An executable check of [queue_inv]. *)
Definition queue_inv_check (q : InputQueue) : bool :=
  (first_frame q <=? end_frame q) &&
  forallb (fun f =>
    match inputs q !! f with
    | Some (v, false) =>
        Z.eqb v (default_or (latest_confirmed_before q f) (default_input q))
    | Some (_, true) => true
    | None => false
    end) (seq (first_frame q) (end_frame q - first_frame q)) &&
  forallb (fun e : nat * (Z * bool) => (first_frame q <=? e.1) && (e.1 <? end_frame q))
    (map_to_list (inputs q)) &&
  Z.eqb (prediction q) (default_or (latest_confirmed_before q (end_frame q)) (default_input q)).

(** The queues a session can build from an empty one. *)
Inductive reachable : InputQueue -> Prop :=
  | reach_empty d : reachable (empty_queue d)
  | reach_local q f v : reachable q -> reachable (add_local_input q f v)
  | reach_remote q f v c : reachable q -> reachable (add_remote_input q f v c).1
  | reach_discard q w : reachable q -> reachable (discard_history q w).

End InputQueue.

(* ===================================================================== *)
(** ** Sessions, the session builder and the examples' main *)
(* ===================================================================== *)
Module Session.

(** Rust's [Result]. *)
Inductive result (A E : Type) : Type :=
  | Ok (a : A)
  | Err (e : E).
Arguments Ok {A E} a.
Arguments Err {A E} e.

Definition bind_result {A B E} (r : result A E) (k : A -> result B E) : result B E :=
  match r with Ok a => k a | Err e => Err e end.

Definition map_err {A E F} (f : E -> F) (r : result A E) : result A F :=
  match r with Ok a => Ok a | Err e => Err (f e) end.

(** A socket address, kept as its text. *)
Definition SocketAddr := string.

Inductive PlayerType :=
  | Local
  | Remote (addr : SocketAddr)
  | Spectator (addr : SocketAddr).

(** Modelled from the spec: the session-level errors. *)
Inductive GGRSError :=
  | PredictionThreshold
  | NotConnected
  | InvalidRequest (info : string).

(** Modelled from the spec: per-peer connection status. *)
Inductive PeerStatus := Synchronizing | Running | Disconnected.

(** Modelled from the spec: NetworkStats of one peer. *)
Record NetworkStats := mkStats {
  ping : nat;
  send_queue_len : nat;
  kbps_sent : nat;
  local_frames_behind : Z;
  remote_frames_behind : Z
}.

Definition zero_stats : NetworkStats := mkStats 0 0 0 0 0.

Record PlayerEntry := mkPlayer {
  ptype : PlayerType;
  pstatus : PeerStatus;
  pstats : NetworkStats
}.

(** Modelled from the spec: the part of a P2P session the claims are
    about: the configured prediction window, the frame counters (the highest
    frame simulated so far and the highest confirmed frame) and the
    players by handle. *)
Record P2PSession := mkSession {
  max_prediction : nat;
  input_delay : nat;
  num_players : nat;
  current_frame : Z;
  last_confirmed_frame : Z;
  players : gmap nat PlayerEntry
}.

(** The frame number of "no frame yet". *)
Definition NULL_FRAME : Z := -1.

(** Modelled from the spec: [advance_frame] stalls, with a
    prediction-threshold status, when one more frame would put the
    current frame more than the window ahead of the last confirmed one. *)
Definition advance_frame (s : P2PSession) : P2PSession * result unit GGRSError :=
  if (Z.of_nat (max_prediction s) <? current_frame s + 1 - last_confirmed_frame s)%Z
  then (s, Err PredictionThreshold)
  else ({| max_prediction := max_prediction s; input_delay := input_delay s;
           num_players := num_players s; current_frame := (current_frame s + 1)%Z;
           last_confirmed_frame := last_confirmed_frame s; players := players s |},
        Ok tt).

(** Modelled from the spec: confirmed inputs of every player up to frame
    [f] have arrived; the last confirmed frame never goes back. *)
Definition confirm_frame (s : P2PSession) (f : Z) : P2PSession :=
  {| max_prediction := max_prediction s; input_delay := input_delay s;
     num_players := num_players s; current_frame := current_frame s;
     last_confirmed_frame := Z.max (last_confirmed_frame s) f;
     players := players s |}.

(** Modelled from the spec: a peer's connection status changes. *)
Definition set_status (s : P2PSession) (h : nat) (st : PeerStatus) : P2PSession :=
  {| max_prediction := max_prediction s; input_delay := input_delay s;
     num_players := num_players s; current_frame := current_frame s;
     last_confirmed_frame := last_confirmed_frame s;
     players := alter (fun p => mkPlayer (ptype p) st (pstats p)) h (players s) |}.

Inductive session_step : P2PSession -> P2PSession -> Prop :=
  | step_advance s : session_step s (advance_frame s).1
  | step_confirm s f : session_step s (confirm_frame s f)
  | step_status s h st : session_step s (set_status s h st).

(** Sessions a started session can get to; a started session has
    simulated no frame and confirmed none. *)
Inductive session_reachable : P2PSession -> Prop :=
  | reach_start s : current_frame s = NULL_FRAME -> last_confirmed_frame s = NULL_FRAME ->
      session_reachable s
  | reach_step s s' : session_reachable s -> session_step s s' -> session_reachable s'.

(** Modelled from the spec: [network_stats(handle)]: the latest stats of
    a connected remote peer; the not-connected error for an unknown
    handle, a peer that is not (or no longer) connected, or a local
    player, which has no connection. *)
Definition network_stats (s : P2PSession) (h : nat) : result NetworkStats GGRSError :=
  match players s !! h with
  | None => Err NotConnected
  | Some p =>
      match ptype p, pstatus p with
      | Local, _ => Err NotConnected
      | _, Running => Ok (pstats p)
      | _, _ => Err NotConnected
      end
  end.

(** Modelled from the spec: the session builder. *)
Record SessionBuilder := mkBuilder {
  sb_num_players : nat;
  sb_max_prediction : nat;
  sb_input_delay : nat;
  sb_players : list (nat * PlayerType)
}.

Definition builder_new : SessionBuilder := mkBuilder 2 8 0 [].

Definition with_num_players (b : SessionBuilder) (n : nat) : SessionBuilder :=
  mkBuilder n (sb_max_prediction b) (sb_input_delay b) (sb_players b).

Definition with_max_prediction_window (b : SessionBuilder) (w : nat) : SessionBuilder :=
  mkBuilder (sb_num_players b) w (sb_input_delay b) (sb_players b).

Definition with_input_delay (b : SessionBuilder) (d : nat) : SessionBuilder :=
  mkBuilder (sb_num_players b) (sb_max_prediction b) d (sb_players b).

(** Modelled from the spec: a duplicate handle is refused at once. *)
Definition add_player (b : SessionBuilder) (ty : PlayerType) (h : nat)
    : result SessionBuilder GGRSError :=
  if existsb (fun e => Nat.eqb e.1 h) (sb_players b)
  then Err (InvalidRequest "Player handle already in use.")
  else Ok (mkBuilder (sb_num_players b) (sb_max_prediction b) (sb_input_delay b)
             (sb_players b ++ [(h, ty)])).

Definition is_spectator (ty : PlayerType) : bool :=
  match ty with Spectator _ => true | _ => false end.

Definition initial_entry (ty : PlayerType) : PlayerEntry :=
  mkPlayer ty (match ty with Local => Running | _ => Synchronizing end) zero_stats.

(** Modelled from the spec: starting the session checks the player
    count (non-zero, and one player added per slot). *)
Definition start_p2p_session (b : SessionBuilder) : result P2PSession GGRSError :=
  if Nat.eqb (sb_num_players b) 0
  then Err (InvalidRequest "Number of players must be positive.")
  else if negb (Nat.eqb (length (List.filter (fun e => negb (is_spectator e.2)) (sb_players b)))
                        (sb_num_players b))
  then Err (InvalidRequest "Not enough players have been added.")
  else Ok {| max_prediction := sb_max_prediction b; input_delay := sb_input_delay b;
             num_players := sb_num_players b; current_frame := NULL_FRAME;
             last_confirmed_frame := NULL_FRAME;
             players := list_to_map ((fun e => (e.1, initial_entry e.2)) <$> sb_players b) |}.

Fixpoint add_players (b : SessionBuilder) (adds : list (PlayerType * nat))
    : result SessionBuilder GGRSError :=
  match adds with
  | [] => Ok b
  | (ty, h) :: rest => bind_result (add_player b ty h) (fun b' => add_players b' rest)
  end.

(** A whole construction: the player count, then each player with its
    handle, then the start. *)
Definition build_p2p_session (n : nat) (adds : list (PlayerType * nat))
    : result P2PSession GGRSError :=
  bind_result (add_players (with_num_players builder_new n) adds) start_p2p_session.

(** A configuration error: zero players, a duplicate handle, or a number
    of (non-spectator) players different from the declared count. *)
Definition invalid_config (n : nat) (adds : list (PlayerType * nat)) : Prop :=
  n = 0 \/ ~ NoDup (snd <$> adds) \/
  length (List.filter (fun e => negb (is_spectator e.1)) adds) <> n.

End Session.

(* ===================================================================== *)
(** ** Peer protocol handshake and liveness *)
(* ===================================================================== *)
Module PeerProtocol.

(** Modelled from the spec: the per-peer state machine
    Initial -> SyncRequestSent -> Synchronizing(retries) -> Running ->
    Disconnected; [Running] counts the quiet ticks since the last message. *)
Inductive ProtocolState :=
  | Initial
  | SyncRequestSent
  | Synchronizing (retries : nat)
  | Running (quiet : nat)
  | Disconnected.

(** Modelled from the spec: the events the protocol raises to the session. *)
Inductive Event :=
  | Synchronized
  | PeerDisconnected.

Section Protocol.
(** The bound on handshake retries and the quiet interval after which
    a running peer counts as silently disconnected. *)
Variable max_retries : nat.
Variable disconnect_timeout : nat.

(** No reply after [r] retries: retry once more, or give up. *)
Definition retry (r : nat) : ProtocolState * list Event :=
  if r <? max_retries then (Synchronizing (S r), [])
  else (Disconnected, [PeerDisconnected]).

(** Modelled from the spec: one poll; [reply] tells whether a valid
    message of the peer (a sync reply during the handshake) arrived. *)
Definition poll (st : ProtocolState) (reply : bool) : ProtocolState * list Event :=
  match st with
  | Initial => (SyncRequestSent, [])
  | SyncRequestSent => if reply then (Running 0, [Synchronized]) else retry 0
  | Synchronizing r => if reply then (Running 0, [Synchronized]) else retry r
  | Running q =>
      if reply then (Running 0, [])
      else if S q <? disconnect_timeout then (Running (S q), [])
      else (Disconnected, [PeerDisconnected])
  | Disconnected => (Disconnected, [])
  end.

(** A run of polls; the events are those drained by [events()]. *)
Fixpoint run (st : ProtocolState) (replies : list bool) : ProtocolState * list Event :=
  match replies with
  | [] => (st, [])
  | b :: bs =>
      let '(st1, ev1) := poll st b in
      let '(st2, ev2) := run st1 bs in
      (st2, ev1 ++ ev2)
  end.

Definition count_disconnects (evs : list Event) : nat :=
  length (List.filter (fun e => match e with PeerDisconnected => true | _ => false end) evs).
End Protocol.

End PeerProtocol.

(* ===================================================================== *)
(** ** Spectator sessions *)
(* ===================================================================== *)
Module Spectator.
Import Session.

(** Modelled from the spec: a spectator session: the host it follows,
    the next frame to simulate, and the confirmed inputs the host has
    relayed so far, by frame. *)
Record SpectatorSession := mkSpectator {
  host : SocketAddr;
  sp_num_players : nat;
  next_frame : nat;
  received : gmap nat (list Z)
}.

Definition start_spectator_session (n : nat) (h : SocketAddr) : SpectatorSession :=
  {| host := h; sp_num_players := n; next_frame := 0; received := ∅ |}.

(** Modelled from the spec: the host relays the inputs of a frame. *)
Definition receive_frame (s : SpectatorSession) (f : nat) (inp : list Z)
    : SpectatorSession :=
  {| host := host s; sp_num_players := sp_num_players s; next_frame := next_frame s;
     received := <[f := inp]> (received s) |}.

(** Modelled from the spec: advancing consumes the next frame's inputs
    when they have arrived and stalls otherwise; no prediction. *)
Definition advance_frame (s : SpectatorSession)
    : SpectatorSession * result (list Z) GGRSError :=
  match received s !! next_frame s with
  | Some inp =>
      ({| host := host s; sp_num_players := sp_num_players s;
          next_frame := S (next_frame s); received := received s |}, Ok inp)
  | None => (s, Err PredictionThreshold)
  end.

Inductive SpectatorEvent :=
  | HostSends (f : nat) (inp : list Z)
  | Tick.

(** A run: the frames simulated, in the order they were simulated. *)
Fixpoint run_spectator (s : SpectatorSession) (evs : list SpectatorEvent)
    : SpectatorSession * list nat :=
  match evs with
  | [] => (s, [])
  | HostSends f inp :: rest => run_spectator (receive_frame s f inp) rest
  | Tick :: rest =>
      let '(s1, r) := advance_frame s in
      let '(s2, log) := run_spectator s1 rest in
      match r with
      | Ok _ => (s2, next_frame s :: log)
      | Err _ => (s2, log)
      end
  end.

Definition host_sends (f : nat) (e : SpectatorEvent) : bool :=
  match e with HostSends g _ => Nat.eqb g f | Tick => false end.

End Spectator.

(* ===================================================================== *)
(** ** The box_game examples' main functions *)
(* ===================================================================== *)
Module BoxGame.
Import Session.

(** src/examples/box_game/box_game_p2p.rs: the command-line options. *)
Record Opt := mkOpt {
  local_port : N;
  opt_players : list string;
  opt_spectators : list SocketAddr
}.

Inductive MainError :=
  | GgrsError (e : GGRSError)
  | AddrParseError
  | IoError.

(** How [main] ends before [app.run()]: the [assert!] panics, a [?]
    returns an error, or a session is built. *)
Inductive MainOutcome :=
  | Panicked
  | Failed (e : MainError)
  | Started (sess : P2PSession).

Section Main.
(** [player_addr.parse()] and [UdpNonBlockingSocket::bind_to_port]. *)
Variable parse_socket_addr : string -> option SocketAddr.
Variable bind_to_port : N -> bool.

(** The player type [main] registers for a listed address. *)
Definition listed_player_type (p : string) : option PlayerType :=
  if String.eqb p "localhost" then Some Local
  else Remote <$> parse_socket_addr p.

(** The loop over [opt.players.iter().enumerate()]. *)
Fixpoint add_listed_players (b : SessionBuilder) (i : nat) (ps : list string)
    : result SessionBuilder MainError :=
  match ps with
  | [] => Ok b
  | p :: rest =>
      let added :=
        if String.eqb p "localhost" then map_err GgrsError (add_player b Local i)
        else match parse_socket_addr p with
             | Some a => map_err GgrsError (add_player b (Remote a) i)
             | None => Err AddrParseError
             end in
      bind_result added (fun b' => add_listed_players b' (S i) rest)
  end.

(** The loop over [opt.spectators.iter().enumerate()]. *)
Fixpoint add_spectators (b : SessionBuilder) (num_players i : nat)
    (ss : list SocketAddr) : result SessionBuilder MainError :=
  match ss with
  | [] => Ok b
  | a :: rest =>
      bind_result (map_err GgrsError (add_player b (Spectator a) (num_players + i)))
        (fun b' => add_spectators b' num_players (S i) rest)
  end.

(** [main] of box_game_p2p.rs up to the start of the session. *)
Definition main_p2p (opt : Opt) : MainOutcome :=
  let num_players := length (opt_players opt) in
  if Nat.eqb num_players 0 then Panicked
  else
    let sess_build :=
      with_input_delay
        (with_max_prediction_window (with_num_players builder_new num_players) 12) 2 in
    match bind_result (add_listed_players sess_build 0 (opt_players opt))
            (fun b => add_spectators b num_players 0 (opt_spectators opt)) with
    | Err e => Failed e
    | Ok b =>
        if bind_to_port (local_port opt) then
          match start_p2p_session b with
          | Ok s => Started s
          | Err e => Failed (GgrsError e)
          end
        else Failed IoError
    end.

(** src/examples/box_game/box_game_spectator.rs: options and [main]. *)
Record SpectatorOpt := mkSpectatorOpt {
  sp_local_port : N;
  sp_opt_num_players : nat;
  sp_host : SocketAddr
}.

Inductive SpectatorOutcome :=
  | SpectatorPanicked
  | SpectatorFailed (e : MainError)
  | SpectatorStarted (sess : Spectator.SpectatorSession).

Definition main_spectator (opt : SpectatorOpt) : SpectatorOutcome :=
  if Nat.eqb (sp_opt_num_players opt) 0 then SpectatorPanicked
  else if bind_to_port (sp_local_port opt) then
    SpectatorStarted
      (Spectator.start_spectator_session (sp_opt_num_players opt) (sp_host opt))
  else SpectatorFailed IoError.
End Main.

End BoxGame.

(* ===================================================================== *)
(** ** The plugin set-up and the Session resource *)
(* ===================================================================== *)
Module GgrsPlugin.
Import Session Snapshot.

(** Modelled from the spec: [GGRSPlugin]'s builder: the update
    frequency, the input system, the types registered for rollback
    (component and resource type ids) and the rollback schedule, written
    as its stages, each a label with the names of its systems. *)
Record GGRSPlugin := mkPlugin {
  update_frequency : nat;
  input_system : option string;
  rollback_components : list nat;
  rollback_resources : list nat;
  rollback_schedule : list (string * list string)
}.

Definition plugin_new : GGRSPlugin := mkPlugin 60 None [] [] [].

Definition with_update_frequency (p : GGRSPlugin) (fps : nat) : GGRSPlugin :=
  mkPlugin fps (input_system p) (rollback_components p) (rollback_resources p)
    (rollback_schedule p).

Definition with_input_system (p : GGRSPlugin) (sys : string) : GGRSPlugin :=
  mkPlugin (update_frequency p) (Some sys) (rollback_components p)
    (rollback_resources p) (rollback_schedule p).

Definition register_rollback_component (p : GGRSPlugin) (ty : nat) : GGRSPlugin :=
  mkPlugin (update_frequency p) (input_system p) (rollback_components p ++ [ty])
    (rollback_resources p) (rollback_schedule p).

Definition register_rollback_resource (p : GGRSPlugin) (ty : nat) : GGRSPlugin :=
  mkPlugin (update_frequency p) (input_system p) (rollback_components p)
    (rollback_resources p ++ [ty]) (rollback_schedule p).

Definition with_rollback_schedule (p : GGRSPlugin) (sch : list (string * list string))
    : GGRSPlugin :=
  mkPlugin (update_frequency p) (input_system p) (rollback_components p)
    (rollback_resources p) sch.

(** The registry the rollback stage snapshots with. *)
Definition plugin_registry (p : GGRSPlugin) : Registry :=
  mkRegistry (list_to_set (rollback_components p)) (list_to_set (rollback_resources p)).

(** Modelled from the spec: bevy_ggrs's [Session] resource, a tagged
    variant over the session kinds; a P2P or spectator session carries
    the queue of events that [events()] drains. *)
Inductive SessionResource :=
  | SessSyncTest
  | SessP2P (s : P2PSession) (pending : list PeerProtocol.Event)
  | SessSpectator (s : Spectator.SpectatorSession) (pending : list PeerProtocol.Event).

(** Modelled from the spec: the session queues events as they occur. *)
Definition push_events (res : SessionResource) (evs : list PeerProtocol.Event)
    : SessionResource :=
  match res with
  | SessSyncTest => SessSyncTest
  | SessP2P s q => SessP2P s (q ++ evs)
  | SessSpectator s q => SessSpectator s (q ++ evs)
  end.

(** How a Bevy system run ends: it panics, or it finishes with what it
    printed (and, for a system with a [ResMut], the new resource). *)
Inductive SystemRun (A : Type) :=
  | Panic (msg : string)
  | Done (out : A).
Arguments Panic {A} msg.
Arguments Done {A} out.

(** An events system run once per app update, with the events the
    session queued since the previous update arriving before each run:
    everything printed, or the first panic. *)
Fixpoint run_events_system
    (sys : SessionResource -> SystemRun (list PeerProtocol.Event * SessionResource))
    (res : SessionResource) (arrivals : list (list PeerProtocol.Event))
    : SystemRun (list PeerProtocol.Event) :=
  match arrivals with
  | [] => Done []
  | evs :: rest =>
      match sys (push_events res evs) with
      | Panic m => Panic m
      | Done (out, res') =>
          match run_events_system sys res' rest with
          | Panic m => Panic m
          | Done outs => Done (out ++ outs)
          end
      end
  end.

End GgrsPlugin.

(* ===================================================================== *)
(** ** box_game_p2p.rs: the plugin set-up and the app's systems *)
(* ===================================================================== *)
Module BoxGameP2P.
Import Session GgrsPlugin.

Definition FPS : nat := 60.
Definition ROLLBACK_DEFAULT : string := "rollback_default".

(** Type ids of the registered component types and of the app's
    resources. *)
Definition Transform_id : nat := 0.
Definition Velocity_id : nat := 1.
Definition FrameCount_id : nat := 0.
Definition NetworkStatsTimer_id : nat := 1.
Definition Opt_id : nat := 2.

(** The [GGRSPlugin] chain of [main] (the spectator example's [main]
    builds the same one). *)
Definition box_game_plugin : GGRSPlugin :=
  with_rollback_schedule
    (register_rollback_resource
       (register_rollback_component
          (register_rollback_component
             (with_input_system (with_update_frequency plugin_new FPS) "input"%string)
             Transform_id)
          Velocity_id)
       FrameCount_id)
    [(ROLLBACK_DEFAULT, ["move_cube_system"; "increase_frame_system"]%string)].

(** [print_events_system]: drain and print the queued events of the P2P
    session; panic on any other session kind.  The printed events are
    returned with the resource after the drain. *)
Definition print_events_system (session : SessionResource)
    : SystemRun (list PeerProtocol.Event * SessionResource) :=
  match session with
  | SessP2P s pending => Done (pending, SessP2P s [])
  | _ => Panic "This example focuses on p2p."
  end.

(** [print_network_stats_system]; [just_finished] is the result of
    [timer.0.tick(time.delta()).just_finished()].  It prints the stats
    of every handle [0..num_players] whose query succeeds. *)
Definition print_network_stats_system (just_finished : bool)
    (p2p_session : option SessionResource) : SystemRun (list (nat * NetworkStats)) :=
  if just_finished then
    match p2p_session with
    | Some (SessP2P s _) =>
        Done (List.concat
                (map (fun i => match network_stats s i with
                               | Ok stats => [(i, stats)]
                               | Err _ => []
                               end)
                     (seq 0 (num_players s))))
    | Some _ => Panic "This examples focuses on p2p."
    | None => Done []
    end
  else Done [].

End BoxGameP2P.

(* ===================================================================== *)
(** ** box_game_spectator.rs: the app's systems *)
(* ===================================================================== *)
Module BoxGameSpectator.
Import Session GgrsPlugin.

Definition print_events_system (session : SessionResource)
    : SystemRun (list PeerProtocol.Event * SessionResource) :=
  match session with
  | SessSpectator s pending => Done (pending, SessSpectator s [])
  | _ => Panic "This example focuses on spectators."
  end.

Section Stats.
(** The spectator session's [network_stats()], the stats of its one
    upstream connection. *)
Variable spectator_network_stats :
  Spectator.SpectatorSession -> result NetworkStats GGRSError.

Definition print_network_stats_system (just_finished : bool)
    (p2p_session : option SessionResource) : SystemRun (list NetworkStats) :=
  if just_finished then
    match p2p_session with
    | Some (SessSpectator s _) =>
        Done (match spectator_network_stats s with
              | Ok stats => [stats]
              | Err _ => []
              end)
    | Some _ => Panic "This example focuses on spectators."
    | None => Done []
    end
  else Done [].
End Stats.

End BoxGameSpectator.

(* ===================================================================== *)
(** ** Proofs: snapshots and rollback *)
(* ===================================================================== *)
Module SnapshotFacts.
Import Snapshot.

Lemma registered_unregistered (reg : gset nat) (m : gmap nat Z) :
  registered reg m ∪ unregistered reg m = m.
Proof. apply map_filter_union_complement. Qed.

Lemma registered_of_union (reg : gset nat) (m1 m2 : gmap nat Z) :
  registered reg (registered reg m1 ∪ unregistered reg m2) = registered reg m1.
Proof.
  apply map_eq; intros j. unfold registered, unregistered.
  rewrite !map_lookup_filter, lookup_union, !map_lookup_filter.
  destruct (m1 !! j) as [x|] eqn:E1, (m2 !! j) as [y|] eqn:E2; simpl;
    repeat (case_guard; simpl); try done; set_solver.
Qed.

Lemma world_eq (w1 w2 : World) :
  rb_entities w1 = rb_entities w2 -> resources w1 = resources w2 ->
  other_state w1 = other_state w2 -> w1 = w2.
Proof. destruct w1, w2; simpl; intros -> -> ->; reflexivity. Qed.

Lemma snapshot_eq (s1 s2 : StateSnapshot) :
  snap_entities s1 = snap_entities s2 -> snap_resources s1 = snap_resources s2 ->
  s1 = s2.
Proof. destruct s1, s2; simpl; intros -> ->; reflexivity. Qed.

(** Restoring a snapshot and snapshotting again gives the snapshot back,
    whatever the world it was written into. *)
Lemma snapshot_of_restore (r : Registry) (w1 w2 : World) :
  take_snapshot r (restore_snapshot r (take_snapshot r w1) w2) = take_snapshot r w1.
Proof.
  apply snapshot_eq; simpl.
  - apply map_eq; intros i. rewrite !lookup_fmap, lookup_merge, lookup_fmap.
    destruct (rb_entities w1 !! i) eqn:E1, (rb_entities w2 !! i) eqn:E2;
      simpl; try done.
    + f_equal. apply registered_of_union.
    + f_equal. unfold registered. apply map_filter_filter_l. naive_solver.
  - apply registered_of_union.
Qed.

(** [C5] Snapshot then restore is the identity: writing the snapshot of a
    world straight back into that world gives the same world, registered
    components and resources, unregistered ones and the rest of the app
    alike; through the stage, saving frame N and loading it again at once
    leaves the world as it was. *)
Theorem snapshot_restore_identity (r : Registry) (step : list Z -> World -> World)
    (w : World) (st : StageState) :
  restore_snapshot r (take_snapshot r w) w = w /\
  exists st',
    handle_requests r step st
      [SaveGameState (stage_frame st); LoadGameState (stage_frame st)] = Some st' /\
    stage_world st' = stage_world st /\ stage_frame st' = stage_frame st.
Proof.
  assert (Hid : forall w0 : World, restore_snapshot r (take_snapshot r w0) w0 = w0).
  { intros w0. apply world_eq; simpl; [| apply registered_unregistered | done].
    apply map_eq; intros i. rewrite lookup_merge, lookup_fmap.
    destruct (rb_entities w0 !! i) eqn:E; simpl; [| done].
    f_equal. apply registered_unregistered. }
  split; [apply Hid |].
  simpl. rewrite lookup_insert_eq. eexists; split; [reflexivity |].
  simpl. split; [apply Hid | reflexivity].
Qed.

Lemma handle_requests_app (r : Registry) (step : list Z -> World -> World)
    (st : StageState) (a b : list GGRSRequest) :
  handle_requests r step st (a ++ b) =
  match handle_requests r step st a with
  | Some st' => handle_requests r step st' b
  | None => None
  end.
Proof.
  revert st; induction a as [|q a IH]; intros st; simpl; [done |].
  destruct (handle_request r step st q); [apply IH | done].
Qed.

(** Running the advance requests from frame [f]: the world is the
    forward simulation, every frame after [f] has the snapshot of its
    simulated world, and older snapshots are untouched. *)
Lemma advance_requests_run (r : Registry) (step : list Z -> World -> World)
    (inputs : list (list Z)) (st : StageState) :
  exists st',
    handle_requests r step st (advance_requests (stage_frame st) inputs) = Some st' /\
    stage_world st' = simulate step (stage_world st) inputs /\
    stage_frame st' = stage_frame st + length inputs /\
    (forall j, 0 < j <= length inputs ->
       stage_snapshots st' !! (stage_frame st + j) =
       Some (take_snapshot r (simulate step (stage_world st) (take j inputs)))) /\
    (forall g, g <= stage_frame st ->
       stage_snapshots st' !! g = stage_snapshots st !! g).
Proof.
  revert st; induction inputs as [|i is IH]; intros st.
  - exists st. simpl. repeat split; try lia; intros; lia.
  - set (st1 := {| stage_world := step i (stage_world st);
                   stage_snapshots := <[S (stage_frame st) :=
                       take_snapshot r (step i (stage_world st))]> (stage_snapshots st);
                   stage_frame := S (stage_frame st) |}).
    destruct (IH st1) as (st' & Hrun & Hw & Hf & Hs & Hold).
    exists st'. simpl in *. repeat split.
    + exact Hrun.
    + exact Hw.
    + rewrite Hf. lia.
    + intros j Hj. destruct (decide (j = 1)) as [->|Hne].
      * rewrite Hold by lia. replace (stage_frame st + 1) with (S (stage_frame st)) by lia.
        rewrite lookup_insert_eq. reflexivity.
      * destruct j as [|j]; [lia |]. destruct j as [|j]; [lia |].
        specialize (Hs (S j) ltac:(lia)). simpl in Hs.
        replace (stage_frame st + S (S j)) with (S (stage_frame st + S j)) by lia.
        rewrite Hs. reflexivity.
    + intros g Hg. rewrite Hold by lia. simpl. rewrite lookup_insert_ne by lia.
      reflexivity.
Qed.

Lemma simulate_snapshot (r : Registry) (step : list Z -> World -> World)
    (inputs : list (list Z)) (w w' : World) :
  schedule_deterministic r step ->
  take_snapshot r w = take_snapshot r w' ->
  take_snapshot r (simulate step w inputs) = take_snapshot r (simulate step w' inputs).
Proof.
  intros Hdet; revert w w'; induction inputs as [|i is IH]; intros w w' Heq;
    simpl; [done |].
  apply IH. apply Hdet. exact Heq.
Qed.

(** [C1] Rollback is deterministic: after simulating frames 1..N forward
    (snapshotting each), loading the snapshot of any frame k <= N and
    re-running the schedule on the same inputs for frames k+1..N ends at
    frame N with registered state identical to the uninterrupted forward
    simulation. *)
Theorem rollback_resimulation_deterministic (r : Registry)
    (step : list Z -> World -> World) (w0 : World) (inputs : list (list Z)) (k : nat) :
  schedule_deterministic r step ->
  k <= length inputs ->
  exists st,
    handle_requests r step (init_stage w0)
      (forward_requests inputs ++ rollback_requests k inputs) = Some st /\
    stage_frame st = length inputs /\
    take_snapshot r (stage_world st) = take_snapshot r (simulate step w0 inputs).
Proof.
  intros Hdet Hk.
  set (st0 := {| stage_world := w0;
                 stage_snapshots := <[0 := take_snapshot r w0]> ∅;
                 stage_frame := 0 |}).
  destruct (advance_requests_run r step inputs st0) as (stF & HrunF & HwF & HfF & HsF & HoldF).
  assert (HF : handle_requests r step (init_stage w0) (forward_requests inputs) = Some stF)
    by exact HrunF.
  assert (Hsk : stage_snapshots stF !! k =
                Some (take_snapshot r (simulate step w0 (take k inputs)))).
  { destruct k as [|k].
    - rewrite (HoldF 0) by (simpl; lia). simpl. rewrite lookup_insert_eq. reflexivity.
    - apply (HsF (S k)). lia. }
  set (stL := {| stage_world := restore_snapshot r
                    (take_snapshot r (simulate step w0 (take k inputs))) (stage_world stF);
                 stage_snapshots := stage_snapshots stF;
                 stage_frame := k |}).
  destruct (advance_requests_run r step (drop k inputs) stL)
    as (stR & HrunR & HwR & HfR & _ & _).
  exists stR. rewrite handle_requests_app, HF.
  unfold rollback_requests. simpl. rewrite Hsk. split; [exact HrunR |]. split.
  - rewrite HfR. simpl. rewrite length_drop. lia.
  - rewrite HwR. simpl.
    assert (Hsplit : simulate step w0 inputs =
      simulate step (simulate step w0 (take k inputs)) (drop k inputs)).
    { unfold simulate. rewrite <- fold_left_app, take_drop. reflexivity. }
    rewrite Hsplit.
    apply simulate_snapshot; [exact Hdet |].
    apply snapshot_of_restore.
Qed.

Lemma frame_counting_schedule_deterministic (r : Registry) :
  0 ∈ reg_resources r -> schedule_deterministic r frame_counting_schedule.
Proof.
  intros H0 i w w' Heq. unfold take_snapshot in *. simpl.
  injection Heq as He Hr. rewrite He. f_equal.
  unfold registered in *. rewrite !map_filter_insert_True by (simpl; exact H0).
  assert (E : forall m : gmap nat Z,
     filter (fun kv => kv.1 ∈ reg_resources r) m !! 0 = m !! 0).
  { intros m. rewrite map_lookup_filter. destruct (m !! 0); simpl; [| reflexivity].
    case_guard; simpl; [reflexivity | contradiction]. }
  assert (Hl : resources w !! 0 = resources w' !! 0)
    by (rewrite <- (E (resources w)), <- (E (resources w')), Hr; reflexivity).
  rewrite Hr, Hl. reflexivity.
Qed.

Lemma rollback_resimulation_deterministic_witness :
  let r := mkRegistry {[0; 1]} {[0]} in
  let w0 := mkWorld {[ 1 := {[0 := 5%Z; 1 := 2%Z; 7 := 9%Z]} ]} {[0 := 0%Z; 3 := 4%Z]} [] in
  let inputs := [[1; 0]; [0; 1]; [1; 1]]%Z in
  schedule_deterministic r frame_counting_schedule /\ 1 <= length inputs /\
  exists st,
    handle_requests r frame_counting_schedule (init_stage w0)
      (forward_requests inputs ++ rollback_requests 1 inputs) = Some st /\
    stage_frame st = length inputs /\
    take_snapshot r (stage_world st) =
      take_snapshot r (simulate frame_counting_schedule w0 inputs).
Proof.
  intros r w0 inputs.
  assert (Hdet : schedule_deterministic r frame_counting_schedule)
    by (apply frame_counting_schedule_deterministic; unfold r; simpl; set_solver).
  assert (Hk : 1 <= length inputs) by (simpl; lia).
  split; [exact Hdet |]. split; [exact Hk |].
  exact (rollback_resimulation_deterministic r frame_counting_schedule w0 inputs 1 Hdet Hk).
Defined.

End SnapshotFacts.

(* ===================================================================== *)
(** ** Proofs: input queues *)
(* ===================================================================== *)
Module InputQueueFacts.
Import InputQueue.

Lemma lcb_none (m : gmap nat (Z * bool)) (lo hi : nat) :
  hi <= lo -> latest_confirmed_below m lo hi = None.
Proof.
  induction hi as [|h IH]; intros H; simpl; [reflexivity |].
  destruct (Nat.ltb_spec h lo); [reflexivity | lia].
Qed.

Lemma lcb_hit (m : gmap nat (Z * bool)) (lo h : nat) (x : Z) :
  lo <= h -> m !! h = Some (x, true) -> latest_confirmed_below m lo (S h) = Some x.
Proof.
  intros Hl Hm. simpl. destruct (Nat.ltb_spec h lo); [lia |]. rewrite Hm. reflexivity.
Qed.

(** Two stores that agree on the scanned frames scan alike. *)
Lemma lcb_agree (m1 m2 : gmap nat (Z * bool)) (lo hi : nat) :
  (forall g, lo <= g < hi -> m1 !! g = m2 !! g) ->
  latest_confirmed_below m1 lo hi = latest_confirmed_below m2 lo hi.
Proof.
  induction hi as [|h IH]; intros H; simpl; [reflexivity |].
  destruct (Nat.ltb_spec h lo); [reflexivity |].
  rewrite (H h) by lia.
  destruct (m2 !! h) as [[v [|]]|]; [reflexivity | |];
    apply IH; intros g Hg; apply H; lia.
Qed.

(** The scan stops at a confirmed frame [j]: what lies below [j] does
    not matter. *)
Lemma lcb_anchor (m1 m2 : gmap nat (Z * bool)) (lo1 lo2 j hi : nat) (x : Z) :
  lo1 <= j -> lo2 <= j -> j < hi ->
  m1 !! j = Some (x, true) -> m2 !! j = Some (x, true) ->
  (forall g, j < g < hi -> m1 !! g = m2 !! g) ->
  latest_confirmed_below m1 lo1 hi = latest_confirmed_below m2 lo2 hi.
Proof.
  induction hi as [|h IH]; intros H1 H2 Hj E1 E2 H; [lia |].
  destruct (Nat.eq_dec h j) as [->|Hne].
  - rewrite (lcb_hit _ _ _ _ H1 E1), (lcb_hit _ _ _ _ H2 E2). reflexivity.
  - simpl. destruct (Nat.ltb_spec h lo1); [lia |].
    destruct (Nat.ltb_spec h lo2); [lia |].
    rewrite (H h) by lia.
    destruct (m2 !! h) as [[v [|]]|]; [reflexivity | |];
      (eapply IH; [lia | lia | lia | exact E1 | exact E2 |]);
      intros g Hg; apply H; lia.
Qed.

(** Frames without a confirmed entry are skipped by the scan. *)
Lemma lcb_skip (m : gmap nat (Z * bool)) (lo a hi : nat) :
  a <= hi ->
  (forall g x, a <= g < hi -> m !! g <> Some (x, true)) ->
  latest_confirmed_below m lo hi = latest_confirmed_below m lo a.
Proof.
  induction hi as [|h IH]; intros Ha H.
  - replace a with 0 by lia. reflexivity.
  - destruct (Nat.eq_dec a (S h)) as [->|Hne]; [reflexivity |].
    simpl. destruct (Nat.ltb_spec h lo).
    + symmetry. apply lcb_none. lia.
    + destruct (m !! h) as [[v [|]]|] eqn:E.
      * exfalso. apply (H h v); [lia | exact E].
      * apply IH; [lia |]. intros g x Hg. apply H. lia.
      * apply IH; [lia |]. intros g x Hg. apply H. lia.
Qed.

Lemma fill_predictions_lookup (m : gmap nat (Z * bool)) (p : Z) (g k i : nat) :
  fill_predictions m p g k !! i =
  if decide (g <= i < g + k) then Some (p, false) else m !! i.
Proof.
  revert m g. induction k as [|k IH]; intros m g; simpl.
  - case_decide; [lia | reflexivity].
  - rewrite IH, lookup_insert.
    repeat case_decide; subst; try reflexivity; lia.
Qed.

(** [repredict] rewrites the frames of a run [g .. j) up to the first
    confirmed entry [j] (or the end), and nothing else. *)
Lemma repredict_spec (m : gmap nat (Z * bool)) (v : Z) (g k : nat)
    (m' : gmap nat (Z * bool)) (b : bool) :
  repredict m v g k = (m', b) ->
  exists j, g <= j <= g + k /\
    (forall i, g <= i < j -> m' !! i = Some (v, false)) /\
    (forall i, ~ (g <= i < j) -> m' !! i = m !! i) /\
    (b = true <-> j = g + k) /\
    (j < g + k -> exists x, m !! j = Some (x, true)).
Proof.
  revert m g. induction k as [|k IH]; intros m g Hr.
  - simpl in Hr. injection Hr as <- <-. exists g.
    split; [lia |]. split; [intros; lia |]. split; [reflexivity |].
    split; [split; intros; [lia | reflexivity] | lia].
  - simpl in Hr.
    assert (Hrec : repredict (<[g:=(v, false)]> m) v (S g) k = (m', b) ->
      exists j, g <= j <= g + S k /\
        (forall i, g <= i < j -> m' !! i = Some (v, false)) /\
        (forall i, ~ (g <= i < j) -> m' !! i = m !! i) /\
        (b = true <-> j = g + S k) /\
        (j < g + S k -> exists x, m !! j = Some (x, true))).
    { intros Hr'. destruct (IH _ _ Hr') as (j & Hj & H1 & H2 & H3 & H4).
      exists j. split; [lia |]. split.
      { intros i Hi. destruct (Nat.eq_dec i g) as [->|Hne].
        - rewrite H2 by lia. apply lookup_insert_eq.
        - apply H1. lia. }
      split.
      { intros i Hi. rewrite H2 by lia. apply lookup_insert_ne. lia. }
      split.
      { rewrite H3. split; intros; lia. }
      intros Hlt. destruct (H4 ltac:(lia)) as [y Hy].
      rewrite lookup_insert_ne in Hy by lia. eauto. }
    destruct (m !! g) as [[x [|]]|] eqn:E.
    + injection Hr as <- <-. exists g.
      split; [lia |]. split; [intros; lia |]. split; [reflexivity |].
      split; [split; [discriminate | lia] |]. intros _. eauto.
    + exact (Hrec Hr).
    + exact (Hrec Hr).
Qed.

Lemma confirmed_run_spec (m : gmap nat (Z * bool)) (g k : nat) :
  confirmed_run m g k <= k /\
  forall i, g <= i < g + confirmed_run m g k -> exists x, m !! i = Some (x, true).
Proof.
  revert g. induction k as [|k IH]; intros g; simpl.
  - split; [lia | intros; lia].
  - destruct (m !! g) as [[x [|]]|] eqn:E; try (split; [lia | intros; lia]).
    destruct (IH (S g)) as [H1 H2]. split; [lia |].
    intros i Hi. destruct (Nat.eq_dec i g) as [->|Hne]; [eauto | apply H2; lia].
Qed.

Lemma lookup_keep_from (m : gmap nat (Z * bool)) (kf i : nat) :
  filter (fun e : nat * (Z * bool) => kf <= e.1) m !! i =
  if decide (kf <= i) then m !! i else None.
Proof.
  rewrite map_lookup_filter.
  destruct (m !! i) as [x|]; simpl; case_decide.
  - rewrite option_guard_True by (simpl; lia). reflexivity.
  - rewrite option_guard_False by (simpl; lia). reflexivity.
  - reflexivity.
  - reflexivity.
Qed.

Lemma add_confirmed_inv (q : InputQueue) (frame : nat) (v : Z) :
  queue_inv q -> queue_inv (add_confirmed q frame v).
Proof.
  intros Hq. unfold add_confirmed.
  destruct (Nat.ltb_spec frame (first_frame q)); [exact Hq |].
  destruct Hq as [[Hfe Hdom] [Hpred Hpf]].
  unfold latest_confirmed_before in Hpred, Hpf.
  destruct (Nat.ltb_spec frame (end_frame q)) as [Hin|Hpast].
  - set (m1 := <[frame:=(v, true)]> (inputs q)).
    destruct (repredict m1 v (S frame) (end_frame q - S frame)) as [m' b] eqn:Er.
    apply repredict_spec in Er as (j & Hj & R1 & R2 & R3 & R4).
    assert (Hm1 : forall i, i <> frame -> m1 !! i = inputs q !! i)
      by (intros i Hi; apply lookup_insert_ne; lia).
    assert (Hfr : m' !! frame = Some (v, true))
      by (rewrite R2 by lia; apply lookup_insert_eq).
    assert (Hrun : forall f, S frame <= f <= j ->
              latest_confirmed_below m' (first_frame q) f = Some v).
    { intros f Hf. rewrite (lcb_skip m' _ (S frame) f); [| lia |].
      - apply lcb_hit; [lia | exact Hfr].
      - intros g x Hg. rewrite R1 by lia. congruence. }
    assert (Hanchor : j < end_frame q -> forall f, j < f <= end_frame q ->
              latest_confirmed_below (inputs q) (first_frame q) f =
              latest_confirmed_below m' (first_frame q) f).
    { intros Hje f Hf. destruct (R4 ltac:(lia)) as [x Hx].
      rewrite Hm1 in Hx by lia.
      apply (lcb_anchor _ _ _ _ j _ x); [lia | lia | lia | exact Hx | |].
      - rewrite R2 by lia. rewrite Hm1 by lia. exact Hx.
      - intros g Hg. rewrite R2 by lia. rewrite Hm1 by lia. reflexivity. }
    unfold queue_inv, no_gap, predictions_repeat, latest_confirmed_before.
    cbn [first_frame end_frame inputs prediction default_input].
    split; [split; [lia |] | split].
    + intros f. split.
      * intros Hf. destruct (decide (S frame <= f < j)) as [Hr|Hr].
        { rewrite R1 by exact Hr. eauto. }
        rewrite R2 by exact Hr. unfold m1. rewrite lookup_insert.
        case_decide; [eauto |]. apply Hdom. lia.
      * intros Hs. destruct (decide (S frame <= f < j)) as [Hr|Hr]; [lia |].
        rewrite R2 in Hs by exact Hr. unfold m1 in Hs. rewrite lookup_insert in Hs.
        case_decide; [lia |]. apply Hdom in Hs. exact Hs.
    + intros f p Hf. destruct (decide (S frame <= f < j)) as [Hr|Hr].
      * rewrite R1 in Hf by exact Hr. injection Hf as <-.
        rewrite Hrun by lia. reflexivity.
      * pose proof Hf as Hf'. rewrite R2 in Hf by exact Hr.
        unfold m1 in Hf. rewrite lookup_insert in Hf.
        case_decide as Hne; [congruence |].
        assert (Hfe' : first_frame q <= f < end_frame q) by (apply Hdom; eauto).
        rewrite (Hpred f p Hf). f_equal.
        destruct (Nat.ltb_spec f frame).
        { apply lcb_agree. intros g Hg. rewrite R2 by lia. symmetry. apply Hm1. lia. }
        assert (Hjf : j <= f) by lia.
        destruct (Nat.eq_dec j f) as [<-|Hjf'].
        { destruct (R4 ltac:(lia)) as [x Hx]. rewrite R2 in Hf' by lia. congruence. }
        apply Hanchor; lia.
    + destruct b.
      * assert (Hje : j = end_frame q) by (destruct R3 as [R3 _]; specialize (R3 eq_refl); lia).
        rewrite Hrun by lia. reflexivity.
      * assert (Hje : j < end_frame q).
        { destruct (Nat.eq_dec j (end_frame q)) as [E|E]; [| lia].
          exfalso. assert (false = true) by (apply R3; lia). discriminate. }
        rewrite Hpf. f_equal. apply Hanchor; lia.
  - set (m2 := fill_predictions (inputs q) (prediction q) (end_frame q) (frame - end_frame q)).
    assert (Hl : forall i, (<[frame:=(v, true)]> m2) !! i =
      if decide (frame = i) then Some (v, true)
      else if decide (end_frame q <= i < end_frame q + (frame - end_frame q))
           then Some (prediction q, false) else inputs q !! i)
      by (intros i; unfold m2; rewrite lookup_insert, fill_predictions_lookup; reflexivity).
    assert (Hold : forall f, f <= end_frame q ->
      latest_confirmed_below (<[frame:=(v, true)]> m2) (first_frame q) f =
      latest_confirmed_below (inputs q) (first_frame q) f).
    { intros f Hf. apply lcb_agree. intros g Hg. rewrite Hl.
      repeat case_decide; try lia. reflexivity. }
    unfold queue_inv, no_gap, predictions_repeat, latest_confirmed_before.
    cbn [first_frame end_frame inputs prediction default_input].
    split; [split; [lia |] | split].
    + intros f. rewrite Hl. case_decide; [split; [eauto | lia] |].
      case_decide; [split; [eauto | lia] |].
      rewrite <- Hdom. lia.
    + intros f p Hf. rewrite Hl in Hf. case_decide; [congruence |].
      case_decide.
      * injection Hf as <-. rewrite Hpf. f_equal.
        rewrite (lcb_skip _ _ (end_frame q) f); [symmetry; apply Hold; lia | lia |].
        intros g x Hg. rewrite Hl. repeat case_decide; try lia. congruence.
      * assert (Hfe' : first_frame q <= f < end_frame q) by (apply Hdom; eauto).
        rewrite (Hpred f p Hf). f_equal. symmetry. apply Hold. lia.
    + rewrite (lcb_hit _ _ frame v); [reflexivity | lia |]. rewrite Hl.
      case_decide; [reflexivity | lia].
Qed.

Lemma extend_predicted_inv (q : InputQueue) (frame : nat) :
  queue_inv q -> queue_inv (extend_predicted q frame).
Proof.
  intros Hq. unfold extend_predicted.
  destruct (Nat.ltb_spec frame (end_frame q)); [exact Hq |].
  destruct Hq as [[Hfe Hdom] [Hpred Hpf]].
  unfold latest_confirmed_before in Hpred, Hpf.
  set (m' := fill_predictions (inputs q) (prediction q) (end_frame q) (S frame - end_frame q)).
  assert (Hl : forall i, m' !! i =
      if decide (end_frame q <= i < end_frame q + (S frame - end_frame q))
      then Some (prediction q, false) else inputs q !! i)
    by (intros i; apply fill_predictions_lookup).
  assert (Hold : forall f, end_frame q <= f <= S frame ->
      latest_confirmed_below m' (first_frame q) f =
      latest_confirmed_below (inputs q) (first_frame q) (end_frame q)).
  { intros f Hf. rewrite (lcb_skip _ _ (end_frame q) f); [| lia |].
    - apply lcb_agree. intros g Hg. rewrite Hl. case_decide; [lia | reflexivity].
    - intros g x Hg. rewrite Hl. case_decide; [congruence | lia]. }
  unfold queue_inv, no_gap, predictions_repeat, latest_confirmed_before.
  cbn [first_frame end_frame inputs prediction default_input].
  split; [split; [lia |] | split].
  - intros f. rewrite Hl. case_decide; [split; [eauto | lia] |].
    rewrite <- Hdom. lia.
  - intros f p Hf. rewrite Hl in Hf. case_decide.
    + injection Hf as <-. rewrite Hpf, Hold by lia. reflexivity.
    + assert (Hfe' : first_frame q <= f < end_frame q) by (apply Hdom; eauto).
      rewrite (Hpred f p Hf). f_equal. apply lcb_agree. intros g Hg.
      rewrite Hl. case_decide; [lia | reflexivity].
  - rewrite Hpf, Hold by lia. reflexivity.
Qed.

Lemma discard_history_inv (q : InputQueue) (w : nat) :
  queue_inv q -> queue_inv (discard_history q w).
Proof.
  intros Hq. unfold discard_history.
  destruct (confirmed_run (inputs q) (first_frame q) (end_frame q - first_frame q))
    as [|n] eqn:Er; [exact Hq |].
  destruct (confirmed_run_spec (inputs q) (first_frame q) (end_frame q - first_frame q))
    as [Hle Hall].
  rewrite Er in Hle, Hall.
  destruct Hq as [[Hfe Hdom] [Hpred Hpf]].
  unfold latest_confirmed_before in Hpred, Hpf.
  set (kf := Nat.max (first_frame q) (first_frame q + n - w)).
  destruct (Hall (first_frame q + n) ltac:(lia)) as [x Hx].
  assert (Hanchor : forall f, first_frame q + n < f ->
      latest_confirmed_below (inputs q) (first_frame q) f =
      latest_confirmed_below (filter (fun e : nat * (Z * bool) => kf <= e.1) (inputs q)) kf f).
  { intros f Hf. apply (lcb_anchor _ _ _ _ (first_frame q + n) _ x);
      [lia | lia | lia | exact Hx | |].
    - rewrite lookup_keep_from. case_decide; [exact Hx | lia].
    - intros g Hg. rewrite lookup_keep_from. case_decide; [reflexivity | lia]. }
  unfold queue_inv, no_gap, predictions_repeat, latest_confirmed_before.
  cbn [first_frame end_frame inputs prediction default_input].
  split; [split; [lia |] | split].
  - intros f. rewrite lookup_keep_from. case_decide.
    + rewrite <- Hdom. lia.
    + split; [lia | intros [? Hn]; discriminate].
  - intros f p Hf. rewrite lookup_keep_from in Hf. case_decide; [| discriminate].
    assert (Hlt : first_frame q + n < f).
    { destruct (Nat.lt_ge_cases (first_frame q + n) f) as [|Hge]; [assumption |].
      destruct (Hall f ltac:(lia)) as [y Hy]. congruence. }
    rewrite (Hpred f p Hf). f_equal. apply Hanchor. exact Hlt.
  - rewrite Hpf. f_equal. apply Hanchor. lia.
Qed.

Lemma empty_queue_inv (d : Z) : queue_inv (empty_queue d).
Proof.
  unfold queue_inv, no_gap, predictions_repeat, latest_confirmed_before, empty_queue. simpl.
  split; [split; [lia |] | split].
  - intros f. rewrite lookup_empty. split; [lia | intros [? Hn]; discriminate].
  - intros f v Hf. rewrite lookup_empty in Hf. discriminate.
  - reflexivity.
Qed.

Lemma add_remote_input_inv (q : InputQueue) (f : nat) (v : Z) (c : bool) :
  queue_inv q -> queue_inv (add_remote_input q f v c).1.
Proof.
  intros Hq. simpl. destruct c; [apply add_confirmed_inv | apply extend_predicted_inv];
    exact Hq.
Qed.

Lemma reachable_inv (q : InputQueue) : reachable q -> queue_inv q.
Proof.
  induction 1.
  - apply empty_queue_inv.
  - apply add_confirmed_inv. assumption.
  - apply add_remote_input_inv. assumption.
  - apply discard_history_inv. assumption.
Qed.

Lemma queue_inv_check_sound (q : InputQueue) : queue_inv_check q = true -> queue_inv q.
Proof.
  unfold queue_inv_check. intros H.
  apply andb_prop in H as [H H4]. apply andb_prop in H as [H H3].
  apply andb_prop in H as [H1 H2].
  apply Nat.leb_le in H1. apply Z.eqb_eq in H4.
  rewrite forallb_forall in H2, H3.
  assert (Hrange : forall f e, inputs q !! f = Some e -> first_frame q <= f < end_frame q).
  { intros f e He. apply elem_of_map_to_list, list_elem_of_In in He.
    specialize (H3 _ He). simpl in H3.
    apply andb_prop in H3 as [Ha Hb]. apply Nat.leb_le in Ha. apply Nat.ltb_lt in Hb. lia. }
  split; [split; [exact H1 |] | split].
  - intros f. split.
    + intros Hf. assert (Hin : In f (seq (first_frame q) (end_frame q - first_frame q)))
        by (apply in_seq; lia).
      specialize (H2 f Hin).
      destruct (inputs q !! f) as [[x c]|]; [eexists; reflexivity | discriminate].
    + intros [e He]. exact (Hrange f e He).
  - intros f v Hf. pose proof (Hrange f _ Hf) as Hr.
    assert (Hin : In f (seq (first_frame q) (end_frame q - first_frame q)))
      by (apply in_seq; lia).
    specialize (H2 f Hin). rewrite Hf in H2. apply Z.eqb_eq in H2. exact H2.
  - exact H4.
Qed.

(** [C4] Every operation on an input queue keeps its invariant: from a
    queue with an entry for each frame from its earliest retained frame
    to its latest and for no other frame, whose unconfirmed entries (and
    prediction past the end) are copies of the last confirmed input
    before them or of the caller default, adding a local input, adding a
    remote input and discarding history give such a queue again;
    [input_for_frame] only reads the queue; an empty queue is one. *)
Theorem queue_operations_preserve_invariant (q : InputQueue) (f w : nat)
    (v : Z) (c : bool) :
  queue_inv q ->
  queue_inv (add_local_input q f v) /\
  queue_inv (add_remote_input q f v c).1 /\
  queue_inv (discard_history q w) /\
  (forall d, queue_inv (empty_queue d)).
Proof.
  intros Hq. split; [apply add_confirmed_inv; exact Hq |].
  split; [apply add_remote_input_inv; exact Hq |].
  split; [apply discard_history_inv; exact Hq |].
  exact empty_queue_inv.
Qed.

Lemma queue_operations_preserve_invariant_witness :
  let q := {| first_frame := 2; end_frame := 5;
              inputs := {[2 := (5%Z, true); 3 := (5%Z, false); 4 := (7%Z, true)]};
              prediction := 7%Z; default_input := 0%Z |} in
  queue_inv q /\
  (queue_inv (add_local_input q 3 9%Z) /\
   queue_inv (add_remote_input q 3 9%Z true).1 /\
   queue_inv (discard_history q 1) /\
   (forall d, queue_inv (empty_queue d))).
Proof.
  intros q.
  assert (Hq : queue_inv q) by (apply queue_inv_check_sound; vm_compute; reflexivity).
  split; [exact Hq |].
  exact (queue_operations_preserve_invariant q 3 1 9%Z true Hq).
Defined.

(** [C3] For every queue a session can build and every retained frame
    [f], [input_for_frame f] is the best-known input: the confirmed
    input of [f] when there is one, otherwise the most recent confirmed
    input before [f], otherwise the caller default; the flag tells
    which. *)
Theorem input_for_frame_best_known (q : InputQueue) (f : nat) :
  reachable q ->
  first_frame q <= f ->
  input_for_frame q f = Some (spec_best_input q f).
Proof.
  intros Hr Hf. destruct (reachable_inv q Hr) as [[Hfe Hdom] [Hpred Hpf]].
  unfold input_for_frame, spec_best_input, entry_at.
  destruct (Nat.ltb_spec f (first_frame q)); [lia |].
  destruct (Nat.ltb_spec f (end_frame q)).
  - destruct (proj1 (Hdom f) ltac:(lia)) as [[x b] Hx].
    rewrite Hx. destruct b; [reflexivity |].
    rewrite <- (Hpred _ _ Hx). reflexivity.
  - destruct (inputs q !! f) as [e|] eqn:E.
    { assert (first_frame q <= f < end_frame q) by (apply Hdom; eauto). lia. }
    rewrite Hpf. unfold latest_confirmed_before.
    rewrite (lcb_skip _ _ (end_frame q) f); [reflexivity | lia |].
    intros g x Hg. destruct (inputs q !! g) eqn:Eg; [| discriminate].
    assert (first_frame q <= g < end_frame q) by (apply Hdom; eauto). lia.
Qed.

Lemma input_for_frame_best_known_witness :
  let q := add_remote_input (add_local_input (empty_queue 0%Z) 0 5%Z) 3 7%Z true in
  reachable q.1 /\ first_frame q.1 <= 2 /\
  input_for_frame q.1 2 = Some (spec_best_input q.1 2) /\
  spec_best_input q.1 2 = (5%Z, false).
Proof.
  intros q.
  assert (Hr : reachable q.1) by (apply reach_remote, reach_local, reach_empty).
  assert (Hf : first_frame q.1 <= 2) by (vm_compute; lia).
  split; [exact Hr |]. split; [exact Hf |].
  split; [exact (input_for_frame_best_known q.1 2 Hr Hf) | vm_compute; reflexivity].
Defined.

End InputQueueFacts.

(* ===================================================================== *)
(** ** Proofs: sessions *)
(* ===================================================================== *)
Module SessionFacts.
Import Session.

Lemma session_step_max_prediction (s s' : P2PSession) :
  session_step s s' -> max_prediction s' = max_prediction s.
Proof.
  destruct 1; simpl; try reflexivity.
  unfold advance_frame. destruct (_ <? _)%Z; reflexivity.
Qed.

Lemma session_step_ptype (s s' : P2PSession) (h : nat) :
  session_step s s' -> ptype <$> players s' !! h = ptype <$> players s !! h.
Proof.
  destruct 1 as [s|s f|s h' st]; simpl.
  - unfold advance_frame. destruct (_ <? _)%Z; reflexivity.
  - reflexivity.
  - rewrite lookup_alter. case_decide; [subst |]; [| reflexivity].
    destruct (players s !! h); reflexivity.
Qed.

Lemma reachable_window (s : P2PSession) :
  session_reachable s ->
  (current_frame s - last_confirmed_frame s <= Z.of_nat (max_prediction s))%Z.
Proof.
  induction 1 as [s Hc Hl | s s' Hr IH Hstep].
  - rewrite Hc, Hl. lia.
  - destruct Hstep as [s|s f|s h st]; simpl.
    + unfold advance_frame.
      destruct (Z.ltb_spec (Z.of_nat (max_prediction s))
        (current_frame s + 1 - last_confirmed_frame s)); simpl; [exact IH | lia].
    + lia.
    + exact IH.
Qed.

(** [C2] In every reachable session the current frame is at most the
    configured prediction window ahead of the last confirmed frame, and
    an [advance_frame] that would go past it returns the stall status
    and leaves the session, its current frame included, unchanged. *)
Theorem prediction_window_respected (s : P2PSession) :
  session_reachable s ->
  (current_frame s - last_confirmed_frame s <= Z.of_nat (max_prediction s))%Z /\
  ((Z.of_nat (max_prediction s) < current_frame s + 1 - last_confirmed_frame s)%Z ->
   advance_frame s = (s, Err PredictionThreshold)).
Proof.
  intros Hr. split; [exact (reachable_window s Hr) |].
  intros Hlt. unfold advance_frame. apply Z.ltb_lt in Hlt. rewrite Hlt. reflexivity.
Qed.

(** The P2P example's window of 12: after twelve advances from the start,
    with nothing confirmed, the current frame is 11, twelve ahead of the
    null frame, and the next advance stalls. *)
Lemma prediction_window_respected_witness :
  let s0 := mkSession 12 2 2 NULL_FRAME NULL_FRAME ∅ in
  let s12 := Nat.iter 12 (fun s => (advance_frame s).1) s0 in
  current_frame s12 = 11%Z /\
  (Z.of_nat (max_prediction s12) < current_frame s12 + 1 - last_confirmed_frame s12)%Z /\
  ((current_frame s12 - last_confirmed_frame s12 <= Z.of_nat (max_prediction s12))%Z /\
   ((Z.of_nat (max_prediction s12) < current_frame s12 + 1 - last_confirmed_frame s12)%Z ->
    advance_frame s12 = (s12, Err PredictionThreshold))).
Proof.
  intros s0 s12. split; [vm_compute; reflexivity |].
  split; [vm_compute; reflexivity |].
  apply prediction_window_respected.
  assert (Hit : forall k, k <= 12 -> session_reachable (Nat.iter k (fun s => (advance_frame s).1) s0)).
  { induction k as [|k IH]; intros Hk.
    - apply reach_start; reflexivity.
    - simpl. eapply reach_step; [apply IH; lia | apply step_advance]. }
  apply Hit. lia.
Defined.

(** [C6] [network_stats] never fails hard: for a handle unknown to the
    session, or a player whose peer is disconnected, it returns the
    not-connected error; for a remote (or spectator) peer that is
    connected it returns that peer's latest stats. *)
Theorem network_stats_results (s : P2PSession) (h : nat) :
  (players s !! h = None -> network_stats s h = Err NotConnected) /\
  (forall p, players s !! h = Some p -> pstatus p = Disconnected ->
     network_stats s h = Err NotConnected) /\
  (forall p, players s !! h = Some p -> ptype p <> Local -> pstatus p = Running ->
     network_stats s h = Ok (pstats p)).
Proof.
  unfold network_stats. split; [intros ->; reflexivity |]. split.
  - intros p -> Hd. rewrite Hd. destruct (ptype p); reflexivity.
  - intros p -> Hl Hrun. rewrite Hrun. destruct (ptype p); [done | reflexivity | reflexivity].
Qed.

Lemma network_stats_results_witness :
  let st := mkStats 30 1 12 0 1 in
  let s := mkSession 12 2 3 NULL_FRAME NULL_FRAME
             {[ 0 := mkPlayer Local Running zero_stats;
                1 := mkPlayer (Remote "10.0.0.2:7001"%string) Running st;
                2 := mkPlayer (Remote "10.0.0.3:7002"%string) Disconnected st ]} in
  network_stats s 7 = Err NotConnected /\
  network_stats s 2 = Err NotConnected /\
  network_stats s 1 = Ok st.
Proof.
  intros st s.
  destruct (network_stats_results s 7) as [H7 _].
  destruct (network_stats_results s 2) as [_ [H2 _]].
  destruct (network_stats_results s 1) as [_ [_ H1]].
  split; [apply H7; vm_compute; reflexivity |].
  split; [apply (H2 (mkPlayer (Remote "10.0.0.3:7002"%string) Disconnected st));
          [vm_compute; reflexivity | reflexivity] |].
  apply (H1 (mkPlayer (Remote "10.0.0.2:7001"%string) Running st));
    [vm_compute; reflexivity | discriminate | reflexivity].
Defined.

End SessionFacts.

(* ===================================================================== *)
(** ** Proofs: session construction and the box_game main *)
(* ===================================================================== *)
Module BoxGameFacts.
Import Session BoxGame.

Lemma add_player_ok (b b' : SessionBuilder) (ty : PlayerType) (h : nat) :
  add_player b ty h = Ok b' ->
  (h ∉ (fst <$> sb_players b)) /\ sb_players b' = sb_players b ++ [(h, ty)] /\
  sb_num_players b' = sb_num_players b.
Proof.
  unfold add_player. destruct (existsb _ _) eqn:E; [discriminate |].
  intros H. injection H as <-. simpl. split; [| split; reflexivity].
  intros Hin. apply list_elem_of_fmap in Hin as [[h' ty'] [Hh Hin]]. simpl in Hh; subst h'.
  assert (Hf : existsb (fun e => Nat.eqb e.1 h) (sb_players b) = true).
  { apply existsb_exists. exists (h, ty'). split; [apply list_elem_of_In; exact Hin |].
    simpl. apply Nat.eqb_refl. }
  congruence.
Qed.

Lemma add_players_ok (adds : list (PlayerType * nat)) (b b' : SessionBuilder) :
  add_players b adds = Ok b' -> NoDup (fst <$> sb_players b) ->
  sb_players b' = sb_players b ++ ((fun e => (e.2, e.1)) <$> adds) /\
  sb_num_players b' = sb_num_players b /\ NoDup (fst <$> sb_players b').
Proof.
  revert b; induction adds as [|[ty h] adds IH]; intros b Hrun Hnd; simpl in Hrun.
  - injection Hrun as <-. rewrite app_nil_r. auto.
  - unfold bind_result in Hrun. destruct (add_player b ty h) as [b1|e] eqn:E; [| discriminate].
    destruct (add_player_ok b b1 ty h E) as (Hnotin & Hp1 & Hn1).
    assert (Hnd1 : NoDup (fst <$> sb_players b1)).
    { rewrite Hp1, fmap_app. simpl. apply NoDup_app. split; [exact Hnd |].
      split; [| apply NoDup_singleton]. intros x Hx Hx'.
      apply list_elem_of_singleton in Hx'. subst. contradiction. }
    destruct (IH b1 Hrun Hnd1) as (Hp & Hn & Hnd').
    split; [| split; [congruence | exact Hnd']].
    rewrite Hp, Hp1, <- app_assoc. reflexivity.
Qed.

Lemma count_swapped (adds : list (PlayerType * nat)) :
  length (List.filter (fun e => negb (is_spectator e.2)) ((fun e => (e.2, e.1)) <$> adds)) =
  length (List.filter (fun e => negb (is_spectator e.1)) adds).
Proof.
  induction adds as [|[ty h] adds IH]; simpl; [reflexivity |].
  destruct (negb (is_spectator ty)); simpl; [f_equal |]; exact IH.
Qed.

Lemma build_invalid_fails (n : nat) (adds : list (PlayerType * nat)) :
  invalid_config n adds -> exists e, build_p2p_session n adds = Err e.
Proof.
  intros Hinv. unfold build_p2p_session.
  destruct (add_players (with_num_players builder_new n) adds) as [b|e] eqn:E;
    simpl; [| eauto].
  destruct (add_players_ok adds _ b E) as (Hp & Hn & Hnd); [constructor |].
  simpl in Hp, Hn. unfold start_p2p_session. rewrite Hn, Hp.
  destruct (Nat.eqb_spec n 0) as [->|Hn0]; [eauto |].
  rewrite count_swapped.
  destruct (Nat.eqb_spec (length (List.filter (fun e => negb (is_spectator e.1)) adds)) n)
    as [Hc|Hc]; simpl; [| eauto].
  exfalso. destruct Hinv as [H0 | [Hdup | Hcnt]]; [lia | | lia].
  apply Hdup. rewrite Hp in Hnd. simpl in Hnd.
  rewrite <- list_fmap_compose in Hnd. exact Hnd.
Qed.

(** [C9] Configuration errors are reported at construction, before any
    session exists: building a P2P session with zero players, a
    duplicate handle or a wrong number of players returns an error and no
    session; the P2P example's [main] panics on its [assert!] when no
    player is listed, and the spectator example's [main] when the player
    count is zero, before a session is built. *)
Theorem configuration_errors_at_build
    (parse_socket_addr : string -> option SocketAddr) (bind_to_port : N -> bool)
    (n : nat) (adds : list (PlayerType * nat)) (opt : Opt) (sopt : SpectatorOpt) :
  (invalid_config n adds -> exists e, build_p2p_session n adds = Err e) /\
  (opt_players opt = [] -> main_p2p parse_socket_addr bind_to_port opt = Panicked) /\
  (sp_opt_num_players sopt = 0 -> main_spectator bind_to_port sopt = SpectatorPanicked).
Proof.
  split; [apply build_invalid_fails |]. split.
  - intros H. unfold main_p2p. rewrite H. reflexivity.
  - intros H. unfold main_spectator. rewrite H. reflexivity.
Qed.

Lemma configuration_errors_at_build_witness :
  (exists e, build_p2p_session 2 [(Local, 0); (Remote "10.0.0.2:7001"%string, 0)] = Err e) /\
  main_p2p (fun a => Some a) (fun _ => true) (mkOpt 7000%N [] []) = Panicked /\
  main_spectator (fun _ => true) (mkSpectatorOpt 7000%N 0 "10.0.0.2:7001"%string)
    = SpectatorPanicked.
Proof.
  destruct (configuration_errors_at_build (fun a => Some a) (fun _ => true) 2
              [(Local, 0); (Remote "10.0.0.2:7001"%string, 0)] (mkOpt 7000%N [] [])
              (mkSpectatorOpt 7000%N 0 "10.0.0.2:7001"%string)) as (H1 & H2 & H3).
  split; [apply H1 | split; [apply H2 | apply H3]]; try reflexivity.
  right. left. intros Hnd. simpl in Hnd. inversion Hnd as [|x l Hx Hl].
  apply Hx. left.
Defined.

Lemma add_listed_players_ok (parse_socket_addr : string -> option SocketAddr)
    (ps : list string) (b b' : SessionBuilder) (i : nat) :
  add_listed_players parse_socket_addr b i ps = Ok b' ->
  exists tys, Forall2 (fun p ty => listed_player_type parse_socket_addr p = Some ty) ps tys /\
    sb_players b' = sb_players b ++ zip (seq i (length ps)) tys /\
    sb_num_players b' = sb_num_players b.
Proof.
  revert b i; induction ps as [|p ps IH]; intros b i Hrun; simpl in Hrun.
  - injection Hrun as <-. exists []. split; [constructor |].
    simpl. rewrite app_nil_r. auto.
  - assert (Hadd : exists ty b1, listed_player_type parse_socket_addr p = Some ty /\
                     add_player b ty i = Ok b1 /\
                     add_listed_players parse_socket_addr b1 (S i) ps = Ok b').
    { unfold listed_player_type, bind_result, map_err in *.
      destruct (String.eqb p "localhost").
      - destruct (add_player b Local i) as [b1|e] eqn:Ea; [| discriminate].
        exists Local, b1. auto.
      - destruct (parse_socket_addr p) as [a|]; [| discriminate]. simpl.
        destruct (add_player b (Remote a) i) as [b1|e] eqn:Ea; [| discriminate].
        exists (Remote a), b1. auto. }
    destruct Hadd as (ty & b1 & Hty & Hb1 & Hrest).
    destruct (add_player_ok b b1 ty i Hb1) as (_ & Hp1 & Hn1).
    destruct (IH b1 (S i) Hrest) as (tys & Hf & Hp & Hn).
    exists (ty :: tys). split; [constructor; assumption |]. split; [| congruence].
    rewrite Hp, Hp1, <- app_assoc. reflexivity.
Qed.

Lemma add_spectators_ok (ss : list SocketAddr) (b b' : SessionBuilder) (n i : nat) :
  add_spectators b n i ss = Ok b' ->
  sb_players b' = sb_players b ++ zip (seq (n + i) (length ss)) (Spectator <$> ss) /\
  sb_num_players b' = sb_num_players b.
Proof.
  revert b i; induction ss as [|a ss IH]; intros b i Hrun; simpl in Hrun.
  - injection Hrun as <-. rewrite app_nil_r. auto.
  - unfold bind_result, map_err in Hrun.
    destruct (add_player b (Spectator a) (n + i)) as [b1|e] eqn:E; [| discriminate].
    destruct (add_player_ok b b1 _ _ E) as (_ & Hp1 & Hn1).
    destruct (IH b1 (S i) Hrun) as (Hp & Hn). split; [| congruence].
    rewrite Hp, Hp1, <- app_assoc. simpl. do 3 f_equal. f_equal. lia.
Qed.

Lemma players_of_zip (tl : list PlayerType) (start h : nat) :
  (list_to_map ((fun e => (e.1, initial_entry e.2)) <$> zip (seq start (length tl)) tl)
     : gmap nat PlayerEntry) !! h =
  if h <? start then None else initial_entry <$> tl !! (h - start).
Proof.
  revert start; induction tl as [|t tl IH]; intros start; simpl.
  - rewrite lookup_empty. destruct (h <? start); reflexivity.
  - rewrite lookup_insert. case_decide as Heq.
    + subst. rewrite Nat.ltb_irrefl, Nat.sub_diag. reflexivity.
    + rewrite IH. destruct (Nat.ltb_spec h (S start)), (Nat.ltb_spec h start);
        try reflexivity; try lia.
      replace (h - start) with (S (h - S start)) by lia. reflexivity.
Qed.

Lemma rtc_session_ptype (s s' : P2PSession) (h : nat) :
  rtc session_step s s' -> ptype <$> players s' !! h = ptype <$> players s !! h.
Proof.
  induction 1 as [|x y z Hxy _ IH]; [reflexivity |].
  rewrite IH. apply SessionFacts.session_step_ptype. exact Hxy.
Qed.

(** [C10] Handles are dense and stable: when the P2P example's [main]
    builds a session from [n] listed players and [m] spectators, the
    player listed [i]-th is registered under handle [i] with the type its
    entry asks for (local for "localhost", remote otherwise), the [k]-th
    spectator under handle [n + k], no other handle exists, and no later
    session step changes which participant a handle denotes. *)
Theorem player_handles_dense (parse_socket_addr : string -> option SocketAddr)
    (bind_to_port : N -> bool) (opt : Opt) (sess : P2PSession) :
  main_p2p parse_socket_addr bind_to_port opt = Started sess ->
  (forall i p, opt_players opt !! i = Some p ->
     exists ty, listed_player_type parse_socket_addr p = Some ty /\
                ptype <$> players sess !! i = Some ty) /\
  (forall k a, opt_spectators opt !! k = Some a ->
     ptype <$> players sess !! (length (opt_players opt) + k) = Some (Spectator a)) /\
  (forall h, is_Some (players sess !! h) <->
             h < length (opt_players opt) + length (opt_spectators opt)) /\
  (forall s', rtc session_step sess s' ->
     forall h, ptype <$> players s' !! h = ptype <$> players sess !! h).
Proof.
  intros Hmain. unfold main_p2p in Hmain.
  destruct (Nat.eqb (length (opt_players opt)) 0); [discriminate |].
  set (n := length (opt_players opt)) in *.
  set (b0 := with_input_delay
               (with_max_prediction_window (with_num_players builder_new n) 12) 2) in *.
  destruct (add_listed_players parse_socket_addr b0 0 (opt_players opt)) as [b1|e] eqn:E1;
    simpl in Hmain; [| discriminate].
  destruct (add_spectators b1 n 0 (opt_spectators opt)) as [b2|e] eqn:E2; [| discriminate].
  destruct (bind_to_port (local_port opt)); [| discriminate].
  destruct (start_p2p_session b2) as [s|e] eqn:E3; [| discriminate].
  injection Hmain as <-.
  destruct (add_listed_players_ok parse_socket_addr _ _ _ _ E1) as (tys & Hf & Hp1 & _).
  destruct (add_spectators_ok _ _ _ _ _ E2) as (Hp2 & _).
  assert (Hlen : length tys = n) by (symmetry; exact (Forall2_length _ _ _ Hf)).
  set (tl := tys ++ (Spectator <$> opt_spectators opt)).
  assert (Hp : sb_players b2 = zip (seq 0 (length tl)) tl).
  { rewrite Hp2, Hp1. simpl. unfold tl. rewrite length_app, length_fmap, seq_app, Hlen.
    rewrite zip_with_app by (rewrite length_seq; lia).
    rewrite Nat.add_0_r. simpl. fold n. reflexivity. }
  assert (Hpl : forall h, players s !! h = initial_entry <$> tl !! h).
  { intros h. unfold start_p2p_session in E3.
    destruct (Nat.eqb (sb_num_players b2) 0); [discriminate |].
    destruct (negb _); [discriminate |].
    injection E3 as <-. simpl. rewrite Hp, players_of_zip. simpl.
    rewrite Nat.sub_0_r. reflexivity. }
  split; [| split; [| split]].
  - intros i p Hi. destruct (Forall2_lookup_l _ _ _ i p Hf Hi) as (ty & Hty & Hl).
    exists ty. split; [exact Hl |]. rewrite Hpl. unfold tl.
    rewrite lookup_app_l by (apply lookup_lt_Some in Hty; exact Hty).
    rewrite Hty. reflexivity.
  - intros k a Hk. rewrite Hpl. unfold tl.
    rewrite lookup_app_r by lia. rewrite Hlen.
    replace (n + k - n) with k by lia. rewrite list_lookup_fmap, Hk. reflexivity.
  - intros h. rewrite Hpl, fmap_is_Some, lookup_lt_is_Some. unfold tl.
    rewrite length_app, length_fmap. lia.
  - intros s' Hrtc h. apply rtc_session_ptype. exact Hrtc.
Qed.

Lemma player_handles_dense_witness :
  let opt := mkOpt 7000%N ["localhost"; "10.0.0.2:7001"]%string ["10.0.0.9:7010"]%string in
  exists sess,
    main_p2p (fun a => Some a) (fun _ => true) opt = Started sess /\
    ((forall i p, opt_players opt !! i = Some p ->
       exists ty, listed_player_type (fun a => Some a) p = Some ty /\
                  ptype <$> players sess !! i = Some ty) /\
     (forall k a, opt_spectators opt !! k = Some a ->
       ptype <$> players sess !! (length (opt_players opt) + k) = Some (Spectator a)) /\
     (forall h, is_Some (players sess !! h) <->
                h < length (opt_players opt) + length (opt_spectators opt)) /\
     (forall s', rtc session_step sess s' ->
       forall h, ptype <$> players s' !! h = ptype <$> players sess !! h)).
Proof.
  intros opt. eexists. split; [vm_compute; reflexivity |].
  apply (player_handles_dense (fun a => Some a) (fun _ => true) opt).
  vm_compute. reflexivity.
Defined.

End BoxGameFacts.

(* ===================================================================== *)
(** ** Proofs: peer protocol *)
(* ===================================================================== *)
Module PeerProtocolFacts.
Import PeerProtocol.

Section Facts.
Variable max_retries disconnect_timeout : nat.

Lemma run_disconnected (bs : list bool) :
  run max_retries disconnect_timeout Disconnected bs = (Disconnected, []).
Proof. induction bs as [|b bs IH]; simpl; [reflexivity |]. rewrite IH. reflexivity. Qed.

Lemma run_cons (st : ProtocolState) (b : bool) (bs : list bool) :
  run max_retries disconnect_timeout st (b :: bs) =
  let '(st1, ev1) := poll max_retries disconnect_timeout st b in
  let '(st2, ev2) := run max_retries disconnect_timeout st1 bs in
  (st2, ev1 ++ ev2).
Proof. reflexivity. Qed.

Lemma count_disconnects_app (a b : list Event) :
  count_disconnects (a ++ b) = count_disconnects a + count_disconnects b.
Proof. unfold count_disconnects. rewrite List.filter_app, List.length_app. reflexivity. Qed.

(** A poll raises at most one disconnection, and only when it moves to
    [Disconnected]. *)
Lemma poll_disconnects (st : ProtocolState) (b : bool) :
  let '(st', evs) := poll max_retries disconnect_timeout st b in
  count_disconnects evs = 0 \/ (count_disconnects evs = 1 /\ st' = Disconnected).
Proof.
  destruct st as [| |r|q|]; simpl; try (left; reflexivity);
    try (destruct b; [left; reflexivity |]); unfold retry;
    repeat match goal with |- context [if ?c then _ else _] => destruct c end;
    simpl; auto.
Qed.

Lemma run_disconnects_le (st : ProtocolState) (bs : list bool) :
  count_disconnects (run max_retries disconnect_timeout st bs).2 <= 1.
Proof.
  revert st; induction bs as [|b bs IH]; intros st; simpl; [unfold count_disconnects; simpl; lia |].
  pose proof (poll_disconnects st b) as Hp.
  destruct (poll max_retries disconnect_timeout st b) as [st1 ev1].
  destruct (run max_retries disconnect_timeout st1 bs) as [st2 ev2] eqn:Er. simpl.
  rewrite count_disconnects_app.
  destruct Hp as [H0 | [H1 ->]].
  - specialize (IH st1). rewrite Er in IH. simpl in IH. lia.
  - rewrite run_disconnected in Er. injection Er as <- <-.
    unfold count_disconnects at 2. simpl. lia.
Qed.

(** From a handshake state that retries after [r] retries, [k] more
    silent polls reach the bound and one more gives up. *)
Lemma silent_retries (k r : nat) (st : ProtocolState) :
  poll max_retries disconnect_timeout st false = retry max_retries r ->
  r + k = max_retries ->
  run max_retries disconnect_timeout st (repeat false (S k)) =
    (Disconnected, [PeerDisconnected]).
Proof.
  revert r st; induction k as [|k IH]; intros r st Hpoll Hrk.
  - simpl. rewrite Hpoll. unfold retry.
    destruct (Nat.ltb_spec r max_retries); [lia |]. reflexivity.
  - change (repeat false (S (S k))) with (false :: repeat false (S k)).
    rewrite run_cons, Hpoll. unfold retry.
    destruct (Nat.ltb_spec r max_retries); [| lia].
    rewrite (IH (S r) (Synchronizing (S r))); [reflexivity | reflexivity | lia].
Qed.
End Facts.

(** [C7] A peer whose handshake gets no reply: after the initial sync
    request and [max_retries] retries without an answer the peer is
    [Disconnected] and exactly one disconnection event has been raised,
    and whatever the peer does afterwards no further one follows; in any
    run at all there is never more than one. *)
Theorem handshake_timeout_single_disconnect (max_retries disconnect_timeout : nat)
    (later : list bool) :
  run max_retries disconnect_timeout Initial (repeat false (S (S max_retries)) ++ later)
    = (Disconnected, [PeerDisconnected]) /\
  (forall st bs, count_disconnects (run max_retries disconnect_timeout st bs).2 <= 1).
Proof.
  split; [| apply run_disconnects_le].
  assert (Hrun : forall bs,
    run max_retries disconnect_timeout Initial (false :: bs) =
    let '(st2, ev2) := run max_retries disconnect_timeout SyncRequestSent bs in
    (st2, [] ++ ev2)) by reflexivity.
  cbn [repeat app]. rewrite Hrun.
  assert (Hsplit : forall (st : ProtocolState) (a b : list bool),
    run max_retries disconnect_timeout st (a ++ b) =
    let '(st1, e1) := run max_retries disconnect_timeout st a in
    let '(st2, e2) := run max_retries disconnect_timeout st1 b in (st2, e1 ++ e2)).
  { intros st a b. revert st; induction a as [|x a IH]; intros st; simpl.
    - destruct (run max_retries disconnect_timeout st b); reflexivity.
    - destruct (poll max_retries disconnect_timeout st x) as [s1 e1].
      rewrite IH. destruct (run max_retries disconnect_timeout s1 a) as [s2 e2].
      destruct (run max_retries disconnect_timeout s2 b) as [s3 e3].
      rewrite app_assoc. reflexivity. }
  change (false :: repeat false max_retries ++ later) with
    (repeat false (S max_retries) ++ later).
  rewrite Hsplit.
  rewrite (silent_retries max_retries disconnect_timeout max_retries 0 SyncRequestSent);
    [| reflexivity | lia].
  rewrite run_disconnected. reflexivity.
Qed.

End PeerProtocolFacts.

(* ===================================================================== *)
(** ** Proofs: spectator sessions *)
(* ===================================================================== *)
Module SpectatorFacts.
Import Session Spectator.

(** A spectator simulates frames in order, one after the other. *)
Lemma run_spectator_in_order (evs : list SpectatorEvent) (s : SpectatorSession) :
  (run_spectator s evs).2 =
    seq (next_frame s) (next_frame (run_spectator s evs).1 - next_frame s) /\
  next_frame s <= next_frame (run_spectator s evs).1.
Proof.
  revert s; induction evs as [|[f inp|] rest IH]; intros s; simpl.
  - rewrite Nat.sub_diag. auto.
  - exact (IH (receive_frame s f inp)).
  - unfold advance_frame. destruct (received s !! next_frame s) as [inp|] eqn:E.
    + set (s1 := {| host := host s; sp_num_players := sp_num_players s;
                    next_frame := S (next_frame s); received := received s |}).
      destruct (IH s1) as [Hlog Hle].
      destruct (run_spectator s1 rest) as [s2 log] eqn:Er. simpl in *.
      split; [| lia].
      rewrite Hlog. replace (next_frame s2 - next_frame s) with
        (S (next_frame s2 - S (next_frame s))) by lia. reflexivity.
    + destruct (IH s) as [Hlog Hle].
      destruct (run_spectator s rest) as [s2 log] eqn:Er. simpl in *. auto.
Qed.

(** While frame [g] has not arrived, the spectator does not get past it. *)
Lemma run_spectator_gap (evs : list SpectatorEvent) (s : SpectatorSession) (g : nat) :
  received s !! g = None -> next_frame s <= g ->
  existsb (host_sends g) evs = false ->
  next_frame (run_spectator s evs).1 <= g.
Proof.
  revert s; induction evs as [|[f inp|] rest IH]; intros s Hg Hle Hno; simpl in *.
  - exact Hle.
  - apply orb_false_iff in Hno as [Hf Hrest]. apply Nat.eqb_neq in Hf.
    apply IH; [| exact Hle | exact Hrest].
    simpl. rewrite lookup_insert_ne by lia. exact Hg.
  - unfold advance_frame. destruct (received s !! next_frame s) as [inp|] eqn:E.
    + set (s1 := {| host := host s; sp_num_players := sp_num_players s;
                    next_frame := S (next_frame s); received := received s |}).
      assert (Hne : next_frame s <> g) by (intros Heq; rewrite Heq in E; congruence).
      assert (Hle1 : next_frame s1 <= g) by (unfold s1; simpl; lia).
      pose proof (IH s1 Hg Hle1 Hno) as H.
      destruct (run_spectator s1 rest) as [s2 log]. exact H.
    + pose proof (IH s Hg Hle Hno) as H.
      destruct (run_spectator s rest) as [s2 log]. exact H.
Qed.

(** [C8] A spectator never skips a gap: while the host has not delivered
    frame [g], the spectator simulates no frame past [g - 1] (it stalls),
    and the frames it does simulate are consecutive and in order; once
    frame [g] arrives, the next tick simulates [g] and it carries on in
    order from there. *)
Theorem spectator_never_skips_gap (s : SpectatorSession) (evs : list SpectatorEvent)
    (g : nat) :
  received s !! g = None -> next_frame s <= g ->
  existsb (host_sends g) evs = false ->
  next_frame (run_spectator s evs).1 <= g /\
  (run_spectator s evs).2 =
    seq (next_frame s) (next_frame (run_spectator s evs).1 - next_frame s) /\
  (forall inp later, next_frame (run_spectator s evs).1 = g ->
     (run_spectator (run_spectator s evs).1 (HostSends g inp :: Tick :: later)).2 =
     g :: seq (S g)
       (next_frame (run_spectator (run_spectator s evs).1
                      (HostSends g inp :: Tick :: later)).1 - S g)).
Proof.
  intros Hg Hle Hno. split; [apply run_spectator_gap; assumption |].
  split; [apply run_spectator_in_order |].
  intros inp later Heq. set (s' := (run_spectator s evs).1) in *.
  simpl. unfold advance_frame. simpl. rewrite Heq, lookup_insert_eq.
  set (s1 := {| host := host s'; sp_num_players := sp_num_players s';
                next_frame := S g; received := <[g := inp]> (received s') |}).
  destruct (run_spectator_in_order later s1) as [Hlog _].
  destruct (run_spectator s1 later) as [s2 log]. simpl in *.
  rewrite Hlog. reflexivity.
Qed.

(** The spec's scenario: frames 0..100 relayed with frame 57 missing;
    the spectator stalls after frame 56. *)
Lemma spectator_never_skips_gap_witness :
  let s := start_spectator_session 2 "10.0.0.1:7000"%string in
  let evs := ((fun f => HostSends f [])
                <$> List.filter (fun f => negb (Nat.eqb f 57)) (seq 0 101))
             ++ repeat Tick 101 in
  next_frame (run_spectator s evs).1 = 57 /\
  (next_frame (run_spectator s evs).1 <= 57 /\
   (run_spectator s evs).2 =
     seq (next_frame s) (next_frame (run_spectator s evs).1 - next_frame s) /\
   (forall inp later, next_frame (run_spectator s evs).1 = 57 ->
     (run_spectator (run_spectator s evs).1 (HostSends 57 inp :: Tick :: later)).2 =
     57 :: seq 58
       (next_frame (run_spectator (run_spectator s evs).1
                      (HostSends 57 inp :: Tick :: later)).1 - 58))).
Proof.
  intros s evs. split; [vm_compute; reflexivity |].
  apply (spectator_never_skips_gap s evs 57).
  - vm_compute. reflexivity.
  - simpl. lia.
  - vm_compute. reflexivity.
Defined.

End SpectatorFacts.

(* ===================================================================== *)
(** ** Proofs: the examples' main, set-up and systems *)
(* ===================================================================== *)
Module BoxGameAppFacts.
Import Session Snapshot BoxGame GgrsPlugin.

Lemma add_player_fresh (b : SessionBuilder) (ty : PlayerType) (h : nat) :
  (forall e, e ∈ sb_players b -> e.1 <> h) ->
  add_player b ty h =
  Ok (mkBuilder (sb_num_players b) (sb_max_prediction b) (sb_input_delay b)
        (sb_players b ++ [(h, ty)])).
Proof.
  intros Hf. unfold add_player.
  destruct (existsb _ _) eqn:E; [| reflexivity].
  apply existsb_exists in E as [e [Hin He]]. apply Nat.eqb_eq in He.
  exfalso. apply (Hf e); [apply list_elem_of_In; exact Hin | exact He].
Qed.

Lemma fresh_snoc (l : list (nat * PlayerType)) (i : nat) (ty : PlayerType) :
  (forall e, e ∈ l -> e.1 < i) -> forall e, e ∈ l ++ [(i, ty)] -> e.1 < S i.
Proof.
  intros Hf e He. apply elem_of_app in He as [He|He].
  - specialize (Hf e He). lia.
  - apply list_elem_of_singleton in He. subst. simpl. lia.
Qed.

Lemma add_listed_players_spec (parse_socket_addr : string -> option SocketAddr)
    (ps : list string) (b : SessionBuilder) (i : nat) :
  (forall e, e ∈ sb_players b -> e.1 < i) ->
  add_listed_players parse_socket_addr b i ps =
  match mapM (listed_player_type parse_socket_addr) ps with
  | Some tys => Ok (mkBuilder (sb_num_players b) (sb_max_prediction b) (sb_input_delay b)
                      (sb_players b ++ zip (seq i (length ps)) tys))
  | None => Err AddrParseError
  end.
Proof.
  revert b i; induction ps as [|p ps IH]; intros b i Hf.
  - simpl. rewrite app_nil_r. destruct b; reflexivity.
  - assert (Hadd : forall ty, add_player b ty i =
      Ok (mkBuilder (sb_num_players b) (sb_max_prediction b) (sb_input_delay b)
            (sb_players b ++ [(i, ty)]))).
    { intros ty. apply add_player_fresh. intros e He. specialize (Hf e He). lia. }
    cbn [add_listed_players mapM]. unfold listed_player_type at 2.
    destruct (String.eqb p "localhost").
    + rewrite Hadd. cbn [map_err bind_result].
      rewrite IH by (apply fresh_snoc; exact Hf). simpl.
      destruct (mapM _ ps); simpl; [| reflexivity].
      rewrite <- app_assoc. reflexivity.
    + destruct (parse_socket_addr p) as [a|]; simpl; [| reflexivity].
      rewrite Hadd. cbn [map_err bind_result].
      rewrite IH by (apply fresh_snoc; exact Hf). simpl.
      destruct (mapM _ ps); simpl; [| reflexivity].
      rewrite <- app_assoc. reflexivity.
Qed.

Lemma add_spectators_spec (ss : list SocketAddr) (b : SessionBuilder) (n i : nat) :
  (forall e, e ∈ sb_players b -> e.1 < n + i) ->
  add_spectators b n i ss =
  Ok (mkBuilder (sb_num_players b) (sb_max_prediction b) (sb_input_delay b)
        (sb_players b ++ zip (seq (n + i) (length ss)) (Spectator <$> ss))).
Proof.
  revert b i; induction ss as [|a ss IH]; intros b i Hf.
  - simpl. rewrite app_nil_r. destruct b; reflexivity.
  - cbn [add_spectators]. rewrite add_player_fresh
      by (intros e He; specialize (Hf e He); lia).
    cbn [map_err bind_result].
    rewrite IH by (intros e' He'; rewrite Nat.add_succ_r;
                   exact (fresh_snoc _ _ _ Hf e' He')). simpl.
    rewrite <- app_assoc, Nat.add_succ_r. reflexivity.
Qed.

Lemma zip_fst_elem (l : list nat) (k : list PlayerType) (e : nat * PlayerType) :
  e ∈ zip l k -> e.1 ∈ l.
Proof.
  revert k; induction l as [|x l IH]; intros [|y k] He; simpl in He;
    try (apply not_elem_of_nil in He; contradiction).
  apply elem_of_cons in He as [->|He].
  - apply elem_of_cons. left. reflexivity.
  - apply elem_of_cons. right. exact (IH k He).
Qed.

Lemma listed_not_spectator (parse_socket_addr : string -> option SocketAddr)
    (p : string) (ty : PlayerType) :
  listed_player_type parse_socket_addr p = Some ty -> is_spectator ty = false.
Proof.
  unfold listed_player_type. destruct (String.eqb p "localhost").
  - intros H. injection H as <-. reflexivity.
  - destruct (parse_socket_addr p); simpl; intros H; [| discriminate].
    injection H as <-. reflexivity.
Qed.

Lemma count_players_zip (l : list nat) (tys : list PlayerType) :
  Forall (fun ty => is_spectator ty = false) tys -> length l = length tys ->
  length (List.filter (fun e => negb (is_spectator e.2)) (zip l tys)) = length tys.
Proof.
  revert l; induction tys as [|ty tys IH]; intros [|x l] Hf Hl; simpl in *;
    try reflexivity; try discriminate.
  inversion Hf as [|? ? Hty Hf']; subst. rewrite Hty. simpl. f_equal.
  apply IH; [exact Hf' | lia].
Qed.

Lemma count_spectators_zip (l : list nat) (ss : list SocketAddr) :
  length (List.filter (fun e => negb (is_spectator e.2)) (zip l (Spectator <$> ss))) = 0.
Proof.
  revert l; induction ss as [|a ss IH]; intros [|x l]; simpl; try reflexivity.
  apply IH.
Qed.

(** What the P2P [main] does once at least one player is listed: an
    address error if a listed entry does not resolve, else an I/O error
    if the port cannot be bound, else the started session. *)
Lemma main_p2p_spec (parse_socket_addr : string -> option SocketAddr)
    (bind_to_port : N -> bool) (opt : Opt) :
  opt_players opt <> [] ->
  main_p2p parse_socket_addr bind_to_port opt =
  match mapM (listed_player_type parse_socket_addr) (opt_players opt) with
  | None => Failed AddrParseError
  | Some tys =>
      if bind_to_port (local_port opt) then
        Started (mkSession 12 2 (length (opt_players opt)) NULL_FRAME NULL_FRAME
          (list_to_map ((fun e => (e.1, initial_entry e.2)) <$>
             zip (seq 0 (length (opt_players opt) + length (opt_spectators opt)))
                 (tys ++ (Spectator <$> opt_spectators opt)))))
      else Failed IoError
  end.
Proof.
  intros Hne. unfold main_p2p.
  destruct (Nat.eqb_spec (length (opt_players opt)) 0) as [H0|Hn0].
  { apply length_zero_iff_nil in H0. contradiction. }
  set (n := length (opt_players opt)) in *.
  rewrite add_listed_players_spec
    by (intros e He; simpl in He; apply not_elem_of_nil in He; contradiction).
  destruct (mapM (listed_player_type parse_socket_addr) (opt_players opt))
    as [tys|] eqn:Em; [| reflexivity].
  apply mapM_Some in Em.
  assert (Hlen : length tys = n) by (symmetry; exact (Forall2_length _ _ _ Em)).
  cbn [bind_result]. simpl.
  rewrite add_spectators_spec.
  2:{ simpl. intros e He. apply zip_fst_elem, elem_of_seq in He. fold n. lia. }
  destruct (bind_to_port (local_port opt)); [| reflexivity].
  unfold start_p2p_session. simpl.
  destruct (Nat.eqb_spec n 0) as [|_]; [lia |].
  rewrite List.filter_app, List.length_app, count_spectators_zip, Nat.add_0_r.
  rewrite count_players_zip.
  3:{ rewrite length_seq. lia. }
  2:{ apply Forall_forall. intros ty Hty.
      apply list_elem_of_lookup in Hty as [k Hk].
      destruct (Forall2_lookup_r _ _ _ k ty Em Hk) as (p & _ & Hp).
      exact (listed_not_spectator _ _ _ Hp). }
  rewrite Hlen, Nat.eqb_refl. simpl.
  rewrite seq_app, zip_with_app by (rewrite length_seq; lia).
  fold n. rewrite Nat.add_0_r. reflexivity.
Qed.

Lemma mapM_listed_Some (parse_socket_addr : string -> option SocketAddr) (ps : list string) :
  Forall (fun p => p = "localhost"%string \/ is_Some (parse_socket_addr p)) ps ->
  is_Some (mapM (listed_player_type parse_socket_addr) ps).
Proof.
  intros Hf. apply mapM_is_Some. eapply Forall_impl; [exact Hf |].
  intros p Hp. simpl. unfold listed_player_type.
  destruct (String.eqb_spec p "localhost") as [_|Hnl]; [eexists; reflexivity |].
  destruct Hp as [Hp|[a Ha]]; [contradiction |]. rewrite Ha. eexists. reflexivity.
Qed.

Lemma main_p2p_started (parse_socket_addr : string -> option SocketAddr)
    (bind_to_port : N -> bool) (opt : Opt) (s0 : P2PSession) :
  main_p2p parse_socket_addr bind_to_port opt = Started s0 ->
  opt_players opt <> [] /\
  exists tys, Forall2 (fun p ty => listed_player_type parse_socket_addr p = Some ty)
                (opt_players opt) tys /\
  s0 = mkSession 12 2 (length (opt_players opt)) NULL_FRAME NULL_FRAME
         (list_to_map ((fun e => (e.1, initial_entry e.2)) <$>
            zip (seq 0 (length (opt_players opt) + length (opt_spectators opt)))
                (tys ++ (Spectator <$> opt_spectators opt)))).
Proof.
  intros Hm.
  assert (Hne : opt_players opt <> []).
  { intros Hnil. unfold main_p2p in Hm. rewrite Hnil in Hm. discriminate. }
  split; [exact Hne |].
  rewrite main_p2p_spec in Hm by exact Hne.
  destruct (mapM _ _) as [tys|] eqn:Em; [| discriminate].
  destruct (bind_to_port _); [| discriminate].
  injection Hm as <-. exists tys. split; [apply mapM_Some; exact Em | reflexivity].
Qed.

Lemma session_step_num_players (s s' : P2PSession) :
  session_step s s' -> num_players s' = num_players s.
Proof.
  destruct 1; simpl; try reflexivity.
  unfold advance_frame. destruct (_ <? _)%Z; reflexivity.
Qed.

Lemma rtc_num_players (s s' : P2PSession) :
  rtc session_step s s' -> num_players s' = num_players s.
Proof.
  induction 1 as [|x y z Hxy _ IH]; [reflexivity |].
  rewrite IH. apply session_step_num_players. exact Hxy.
Qed.

Lemma stats_lines_in (s : P2PSession) (a n h : nat) (st : NetworkStats) :
  In (h, st) (List.concat (map (fun i => match network_stats s i with
                                         | Ok stats => [(i, stats)]
                                         | Err _ => []
                                         end) (seq a n))) <->
  a <= h < a + n /\ network_stats s h = Ok st.
Proof.
  revert a; induction n as [|n IH]; intros a; simpl.
  - split; [contradiction | lia].
  - rewrite in_app_iff, IH.
    destruct (network_stats s a) as [sa|e] eqn:Ea; simpl.
    + split.
      * intros [[Heq|[]]|[Hr Hst]]; [injection Heq as -> ->; split; [lia | exact Ea] |].
        split; [lia | exact Hst].
      * intros [Hr Hst]. destruct (Nat.eq_dec h a) as [->|Hne].
        -- left. left. rewrite Ea in Hst. injection Hst as ->. reflexivity.
        -- right. split; [lia | exact Hst].
    + split.
      * intros [[]|[Hr Hst]]. split; [lia | exact Hst].
      * intros [Hr Hst]. right. split; [| exact Hst].
        destruct (Nat.eq_dec h a) as [->|Hne]; [congruence | lia].
Qed.

Lemma stats_lines_nodup (s : P2PSession) (a n : nat) :
  NoDup (map fst (List.concat (map (fun i => match network_stats s i with
                                             | Ok stats => [(i, stats)]
                                             | Err _ => []
                                             end) (seq a n)))).
Proof.
  revert a; induction n as [|n IH]; intros a; simpl; [constructor |].
  destruct (network_stats s a) as [sa|e]; simpl; [| apply IH].
  constructor; [| apply IH].
  intros Hin. apply list_elem_of_In, in_map_iff in Hin as [[h st] [Hh Hin]].
  simpl in Hh. subst h.
  apply stats_lines_in in Hin. lia.
Qed.

Lemma restore_resource_registered (r : Registry) (ws w : World) (i : nat) :
  i ∈ reg_resources r ->
  resources (restore_snapshot r (take_snapshot r ws) w) !! i = resources ws !! i.
Proof.
  intros Hi. simpl. rewrite lookup_union. unfold registered, unregistered.
  rewrite !map_lookup_filter.
  destruct (resources ws !! i), (resources w !! i); simpl;
    rewrite ?option_guard_True by exact Hi;
    rewrite ?option_guard_False by (intros Hn; apply Hn; simpl; exact Hi);
    reflexivity.
Qed.

Lemma restore_resource_unregistered (r : Registry) (ws w : World) (i : nat) :
  i ∉ reg_resources r ->
  resources (restore_snapshot r (take_snapshot r ws) w) !! i = resources w !! i.
Proof.
  intros Hi. simpl. rewrite lookup_union. unfold registered, unregistered.
  rewrite !map_lookup_filter.
  destruct (resources ws !! i), (resources w !! i); simpl;
    rewrite ?option_guard_False by exact Hi;
    rewrite ?option_guard_True by exact Hi;
    reflexivity.
Qed.

Lemma restore_component_registered (r : Registry) (ws w : World) (e c : nat) :
  c ∈ reg_components r ->
  (rb_entities (restore_snapshot r (take_snapshot r ws) w) !! e ≫= fun m => m !! c) =
  (rb_entities ws !! e ≫= fun m => m !! c).
Proof.
  intros Hc. simpl. rewrite lookup_merge, lookup_fmap.
  destruct (rb_entities ws !! e) as [sc|], (rb_entities w !! e) as [wc|]; simpl;
    try reflexivity.
  - rewrite lookup_union. unfold registered, unregistered. rewrite !map_lookup_filter.
    destruct (sc !! c), (wc !! c); simpl;
      rewrite ?option_guard_True by exact Hc;
      rewrite ?option_guard_False by (intros Hn; apply Hn; simpl; exact Hc);
      reflexivity.
  - unfold registered. rewrite map_lookup_filter.
    destruct (sc !! c); simpl; rewrite ?option_guard_True by exact Hc; reflexivity.
Qed.

(** The P2P [main] reports an address-parse error as soon as a listed
    player entry is neither "localhost" nor a parsable socket address,
    whatever the port binding would do: the entries are parsed before the
    socket is bound. *)
Theorem main_p2p_bad_address (parse_socket_addr : string -> option SocketAddr)
    (bind_to_port : N -> bool) (opt : Opt) :
  Exists (fun p => p <> "localhost"%string /\ parse_socket_addr p = None) (opt_players opt) ->
  main_p2p parse_socket_addr bind_to_port opt = Failed AddrParseError.
Proof.
  intros Hex.
  assert (Hne : opt_players opt <> []).
  { intros Hnil. rewrite Hnil in Hex. inversion Hex. }
  rewrite main_p2p_spec by exact Hne.
  rewrite mapM_None_2; [reflexivity |].
  eapply Exists_impl; [exact Hex |]. intros p [Hnl Hp]. unfold listed_player_type.
  destruct (String.eqb_spec p "localhost"); [contradiction |]. rewrite Hp. reflexivity.
Qed.

Lemma main_p2p_bad_address_witness :
  let opt := mkOpt 7000%N ["localhost"; "bad"]%string [] in
  let parse := fun a : string => if String.eqb a "bad" then None else Some a in
  Exists (fun p => p <> "localhost"%string /\ parse p = None) (opt_players opt) /\
  main_p2p parse (fun _ => true) opt = Failed AddrParseError.
Proof.
  intros opt parse.
  assert (Hex : Exists (fun p => p <> "localhost"%string /\ parse p = None) (opt_players opt)).
  { apply Exists_cons_tl, Exists_cons_hd. split; [discriminate | reflexivity]. }
  split; [exact Hex | apply (main_p2p_bad_address parse (fun _ => true) opt Hex)].
Defined.

(** When every listed player entry resolves but the local port cannot be
    bound, the P2P [main] fails with the I/O error. *)
Theorem main_p2p_bind_failure (parse_socket_addr : string -> option SocketAddr)
    (bind_to_port : N -> bool) (opt : Opt) :
  opt_players opt <> [] ->
  Forall (fun p => p = "localhost"%string \/ is_Some (parse_socket_addr p)) (opt_players opt) ->
  bind_to_port (local_port opt) = false ->
  main_p2p parse_socket_addr bind_to_port opt = Failed IoError.
Proof.
  intros Hne Hf Hb. rewrite main_p2p_spec by exact Hne.
  destruct (mapM_listed_Some _ _ Hf) as [tys Htys]. rewrite Htys, Hb. reflexivity.
Qed.

Lemma main_p2p_bind_failure_witness :
  let opt := mkOpt 7000%N ["localhost"; "10.0.0.2:7001"]%string ["10.0.0.9:7010"]%string in
  opt_players opt <> [] /\
  Forall (fun p => p = "localhost"%string \/ is_Some (Some p)) (opt_players opt) /\
  (fun _ : N => false) (local_port opt) = false /\
  main_p2p (fun a => Some a) (fun _ => false) opt = Failed IoError.
Proof.
  intros opt.
  assert (Hne : opt_players opt <> []) by discriminate.
  assert (Hf : Forall (fun p => p = "localhost"%string \/ is_Some (Some p)) (opt_players opt)).
  { constructor; [left; reflexivity |].
    constructor; [right; eexists; reflexivity | constructor]. }
  split; [exact Hne | split; [exact Hf | split; [reflexivity |]]].
  apply (main_p2p_bind_failure (fun a => Some a) (fun _ => false) opt Hne Hf). reflexivity.
Defined.

(** When every listed player entry resolves and the port is bound, the
    P2P [main] starts a session with one slot per listed player, the
    prediction window 12 and the input delay 2 it configures. *)
Theorem main_p2p_session_config (parse_socket_addr : string -> option SocketAddr)
    (bind_to_port : N -> bool) (opt : Opt) :
  opt_players opt <> [] ->
  Forall (fun p => p = "localhost"%string \/ is_Some (parse_socket_addr p)) (opt_players opt) ->
  bind_to_port (local_port opt) = true ->
  exists s, main_p2p parse_socket_addr bind_to_port opt = Started s /\
    max_prediction s = 12 /\ input_delay s = 2 /\
    num_players s = length (opt_players opt).
Proof.
  intros Hne Hf Hb. rewrite main_p2p_spec by exact Hne.
  destruct (mapM_listed_Some _ _ Hf) as [tys Htys]. rewrite Htys, Hb.
  eexists. split; [reflexivity |]. simpl. repeat split.
Qed.

Lemma main_p2p_session_config_witness :
  let opt := mkOpt 7000%N ["localhost"; "10.0.0.2:7001"]%string ["10.0.0.9:7010"]%string in
  opt_players opt <> [] /\
  Forall (fun p => p = "localhost"%string \/ is_Some (Some p)) (opt_players opt) /\
  (fun _ : N => true) (local_port opt) = true /\
  exists s, main_p2p (fun a => Some a) (fun _ => true) opt = Started s /\
    max_prediction s = 12 /\ input_delay s = 2 /\
    num_players s = length (opt_players opt).
Proof.
  intros opt.
  assert (Hne : opt_players opt <> []) by discriminate.
  assert (Hf : Forall (fun p => p = "localhost"%string \/ is_Some (Some p)) (opt_players opt)).
  { constructor; [left; reflexivity |].
    constructor; [right; eexists; reflexivity | constructor]. }
  split; [exact Hne | split; [exact Hf | split; [reflexivity |]]].
  apply (main_p2p_session_config (fun a => Some a) (fun _ => true) opt Hne Hf). reflexivity.
Defined.

(** The P2P [main] never ends with a session-builder error: the handles
    it assigns (players [0..n], spectators from [n]) are never in use
    twice and always fill the declared player count. *)
Theorem main_p2p_no_builder_error (parse_socket_addr : string -> option SocketAddr)
    (bind_to_port : N -> bool) (opt : Opt) (e : GGRSError) :
  main_p2p parse_socket_addr bind_to_port opt <> Failed (GgrsError e).
Proof.
  destruct (opt_players opt) eqn:Ep.
  - unfold main_p2p. rewrite Ep. discriminate.
  - rewrite main_p2p_spec by (rewrite Ep; discriminate).
    destruct (mapM _ _); [destruct (bind_to_port _) |]; discriminate.
Qed.

(** The P2P stats system prints nothing when its timer has not just
    finished; when it has, it prints one line for each handle below
    [num_players] whose [network_stats] query succeeds, with those
    stats, and no handle twice. *)
Theorem p2p_stats_system_output (s : P2PSession) (pending : list PeerProtocol.Event)
    (res : option SessionResource) :
  BoxGameP2P.print_network_stats_system false res = Done [] /\
  exists out,
    BoxGameP2P.print_network_stats_system true (Some (SessP2P s pending)) = Done out /\
    (forall h st, In (h, st) out <-> h < num_players s /\ network_stats s h = Ok st) /\
    NoDup (map fst out).
Proof.
  split; [reflexivity |]. eexists. split; [reflexivity |]. split.
  - intros h st. rewrite stats_lines_in.
    split; intros [Hr Hst]; (split; [lia | exact Hst]).
  - apply stats_lines_nodup.
Qed.

(** In a session the P2P [main] started, whatever steps it took since,
    the stats system only ever prints the stats of remote players: each
    printed handle is below the number of listed players, so never a
    spectator's, and is that of a listed entry other than "localhost"
    which the session knows as that remote address; never a local player. *)
Theorem p2p_stats_only_remote_players
    (parse_socket_addr : string -> option SocketAddr) (bind_to_port : N -> bool)
    (opt : Opt) (s0 s : P2PSession) (pending : list PeerProtocol.Event)
    (out : list (nat * NetworkStats)) :
  main_p2p parse_socket_addr bind_to_port opt = Started s0 ->
  rtc session_step s0 s ->
  BoxGameP2P.print_network_stats_system true (Some (SessP2P s pending)) = Done out ->
  forall h st, In (h, st) out ->
    h < length (opt_players opt) /\
    exists p a, opt_players opt !! h = Some p /\ p <> "localhost"%string /\
      parse_socket_addr p = Some a /\ ptype <$> players s !! h = Some (Remote a).
Proof.
  intros Hm Hrtc Hout.
  destruct (main_p2p_started _ _ _ _ Hm) as (Hne & tys & Hf & Hs0).
  assert (Hlen : length tys = length (opt_players opt))
    by (symmetry; exact (Forall2_length _ _ _ Hf)).
  assert (Hpl : forall h, players s0 !! h =
                  initial_entry <$> (tys ++ (Spectator <$> opt_spectators opt)) !! h).
  { intros h. rewrite Hs0. simpl.
    replace (length (opt_players opt) + length (opt_spectators opt))
      with (length (tys ++ (Spectator <$> opt_spectators opt)))
      by (rewrite length_app, length_fmap; lia).
    rewrite BoxGameFacts.players_of_zip. simpl. rewrite Nat.sub_0_r. reflexivity. }
  unfold BoxGameP2P.print_network_stats_system in Hout. injection Hout as Hout.
  symmetry in Hout.
  intros h st Hin. rewrite Hout in Hin. apply stats_lines_in in Hin as [Hr Hst].
  rewrite (rtc_num_players _ _ Hrtc), Hs0 in Hr. simpl in Hr.
  split; [lia |].
  unfold network_stats in Hst. destruct (players s !! h) as [p|] eqn:Eh; [| discriminate].
  pose proof (BoxGameFacts.rtc_session_ptype _ _ h Hrtc) as Hpt.
  rewrite Eh, Hpl, lookup_app_l in Hpt by lia.
  destruct (lookup_lt_is_Some_2 (opt_players opt) h ltac:(lia)) as [p0 Hp0].
  destruct (Forall2_lookup_l _ _ _ h p0 Hf Hp0) as (ty & Hty & Hl).
  rewrite Hty in Hpt. simpl in Hpt. injection Hpt as Hpt.
  unfold listed_player_type in Hl.
  destruct (String.eqb_spec p0 "localhost") as [Hloc|Hloc].
  - injection Hl as <-. rewrite Hpt in Hst. discriminate.
  - destruct (parse_socket_addr p0) as [a|] eqn:Ea; simpl in Hl; [| discriminate].
    injection Hl as <-. exists p0, a. simpl. rewrite Hpt. auto.
Qed.

Lemma p2p_stats_only_remote_players_witness :
  let opt := mkOpt 7000%N ["localhost"; "10.0.0.2:7001"]%string ["10.0.0.9:7010"]%string in
  exists s0 out,
    main_p2p (fun a => Some a) (fun _ => true) opt = Started s0 /\
    rtc session_step s0 (set_status s0 1 Running) /\
    BoxGameP2P.print_network_stats_system true
      (Some (SessP2P (set_status s0 1 Running) [])) = Done out /\
    out = [(1, zero_stats)] /\
    (forall h st, In (h, st) out ->
       h < length (opt_players opt) /\
       exists p a, opt_players opt !! h = Some p /\ p <> "localhost"%string /\
         (fun a => Some a) p = Some a /\
         ptype <$> players (set_status s0 1 Running) !! h = Some (Remote a)).
Proof.
  intros opt. eexists. eexists.
  split; [vm_compute; reflexivity |].
  split; [apply rtc_once; apply step_status |].
  split; [vm_compute; reflexivity |].
  split; [vm_compute; reflexivity |].
  eapply (p2p_stats_only_remote_players (fun a => Some a) (fun _ => true) opt _ _ []).
  - vm_compute. reflexivity.
  - apply rtc_once. apply step_status.
  - vm_compute. reflexivity.
Defined.

(** Each example's events system, run once per app update on the session
    resource its [main] inserts (with no event pending at the start),
    prints every event the session queues exactly once, in the order
    queued, and never panics. *)
Theorem events_printed_once (s : P2PSession) (sp : Spectator.SpectatorSession)
    (arrivals : list (list PeerProtocol.Event)) :
  run_events_system BoxGameP2P.print_events_system (SessP2P s []) arrivals
    = Done (List.concat arrivals) /\
  run_events_system BoxGameSpectator.print_events_system (SessSpectator sp []) arrivals
    = Done (List.concat arrivals).
Proof.
  induction arrivals as [|evs rest [IH1 IH2]]; [split; reflexivity |].
  simpl. rewrite IH1, IH2. split; reflexivity.
Qed.

(** A rollback in the box_game apps restores exactly what the plugin set-up
    registers: the [FrameCount] resource and every rollback entity's
    [Transform] and [Velocity] are put back to the saved values, while the
    stats timer and the options resource, which are not registered, keep
    their current values, as does every other part of the app. *)
Theorem box_game_rollback_state (ws w : World) :
  let r := plugin_registry BoxGameP2P.box_game_plugin in
  let w' := restore_snapshot r (take_snapshot r ws) w in
  resources w' !! BoxGameP2P.FrameCount_id = resources ws !! BoxGameP2P.FrameCount_id /\
  resources w' !! BoxGameP2P.NetworkStatsTimer_id
    = resources w !! BoxGameP2P.NetworkStatsTimer_id /\
  resources w' !! BoxGameP2P.Opt_id = resources w !! BoxGameP2P.Opt_id /\
  (forall e c, c = BoxGameP2P.Transform_id \/ c = BoxGameP2P.Velocity_id ->
     (rb_entities w' !! e ≫= fun m => m !! c) = (rb_entities ws !! e ≫= fun m => m !! c)) /\
  other_state w' = other_state w.
Proof.
  intros r w'. unfold w'.
  split; [| split; [| split; [| split]]].
  - apply restore_resource_registered. unfold r. simpl. set_solver.
  - apply restore_resource_unregistered. unfold r. simpl. set_solver.
  - apply restore_resource_unregistered. unfold r. simpl. set_solver.
  - intros e c Hc. apply restore_component_registered. unfold r. simpl.
    unfold BoxGameP2P.Transform_id, BoxGameP2P.Velocity_id in Hc. set_solver.
  - reflexivity.
Qed.

End BoxGameAppFacts.
